(** * Repository-backed session manager

    A shallow embedding of [strands/session/repository_session_manager.py]:
    the [RepositorySessionManager] class, its constructor and its four
    lifecycle methods [initialize], [append_message],
    [redact_latest_message] and [sync_agent].

    The Python methods mutate [self], call into a repository object and may
    raise.  They are embedded in a state-and-exception monad whose state
    survives a raised exception, exactly as the fields of a Python object
    survive an exception that propagates out of one of its methods. *)

From stdpp Require Import gmap strings list fin_maps.
From Stdlib Require Import ZArith Sorted.

Local Open Scope Z_scope.
Local Open Scope string_scope.
Local Open Scope list_scope.

(** ** Exceptions and the monad *)

(** The exceptions that can leave a method: [SessionException] is raised by
    the manager itself, [KeyError] by a failed dictionary subscript, and the
    repository may raise those or anything else ([OtherError]). *)
Inductive exn : Type :=
| SessionException (msg : string)
| KeyError (key : string)
| OtherError (detail : string).

Inductive result (A : Type) : Type :=
| Return (a : A)
| Raise (e : exn).
Arguments Return {A} a.
Arguments Raise {A} e.

(** A computation over a mutable state [S]: it yields the state it leaves
    behind together with either a value or the exception that escaped. *)
Definition M (S A : Type) : Type := S -> S * result A.

Definition ret {S A : Type} (a : A) : M S A := fun s => (s, Return a).

Definition bind {S A B : Type} (m : M S A) (k : A -> M S B) : M S B :=
  fun s => match m s with
           | (s', Return a) => k a s'
           | (s', Raise e) => (s', Raise e)
           end.

Definition raise {S A : Type} (e : exn) : M S A := fun s => (s, Raise e).

Definition gets {S A : Type} (f : S -> A) : M S A := fun s => (s, Return (f s)).

Definition modify {S : Type} (f : S -> S) : M S unit := fun s => (f s, Return tt).

Notation "x <- m ;; k" := (bind m (fun x => k))
  (at level 100, m at next level, right associativity).
Notation "m ;; k" := (bind m (fun _ => k))
  (at level 100, right associativity).

(** ** Session entities *)

Inductive SessionType : Type := AGENT.

Record Session : Type := {
  s_session_id : string;
  s_session_type : SessionType
}.

Section Entities.
(** [types/content.py] (the [Message] dictionary) and the payload of an
    agent's state are not part of the modelled source; the manager never
    inspects either, so both are parameters. *)
Context {Message State : Type}.

(** Modelled from the spec: [types/session.py] is missing; a
    SessionMessage has an integer [message_id], the [message] content and
    an optional [redact_message] replacement. *)
Record SessionMessage : Type := {
  message : Message;
  message_id : Z;
  redact_message : option Message
}.

(** Modelled from the spec: [SessionMessage.from_message] is missing; it
    builds a SessionMessage with the given index and message content and
    no redaction. *)
Definition from_message (m : Message) (index : Z) : SessionMessage :=
  {| message := m; message_id := index; redact_message := None |}.

(** Modelled from the spec: [SessionMessage.to_message] is missing;
    [redact_message], when present, is surfaced in place of [message]. *)
Definition to_message (sm : SessionMessage) : Message :=
  match redact_message sm with
  | Some r => r
  | None => message sm
  end.

(** The assignment [latest_agent_message.redact_message = redact_message].
    The object assigned to is the one the cache holds, so the cache entry is
    replaced by the record returned here, and the same record is what
    [update_message] receives. *)
Definition set_redact_message (sm : SessionMessage) (r : Message) : SessionMessage :=
  {| message := message sm; message_id := message_id sm; redact_message := Some r |}.

(** The in-memory agent, as far as the manager reads and writes it. *)
Record Agent : Type := {
  agent_id : string;
  messages : list Message;
  state : State
}.

(** Modelled from the spec: [types/session.py] is missing; a SessionAgent
    is a snapshot of one agent: its [agent_id] and its state. *)
Record SessionAgent : Type := {
  sa_agent_id : string;
  sa_state : State
}.

(** Modelled from the spec: [SessionAgent.from_agent] is missing; it takes
    a fresh snapshot of the agent's identity and state. *)
Definition from_agent (agent : Agent) : SessionAgent :=
  {| sa_agent_id := agent_id agent; sa_state := state agent |}.

(** Modelled from the spec: [agent/state.py] is missing; [AgentState(d)]
    wraps the persisted state mapping [d] as the agent's state. *)
Definition AgentState (d : State) : State := d.

(** ** The repository interface *)

(** One constructor per operation of the repository, with its arguments:
    the record of a call the manager made. *)
Inductive call : Type :=
| CreateSession (session : Session)
| ReadSession (session_id : string)
| CreateAgent (session_id : string) (session_agent : SessionAgent)
| ReadAgent (session_id agent_id : string)
| UpdateAgent (session_id : string) (session_agent : SessionAgent)
| CreateMessage (session_id agent_id : string) (session_message : SessionMessage)
| UpdateMessage (session_id agent_id : string) (session_message : SessionMessage)
| ListMessages (session_id agent_id : string).

(** [SessionRepository] is the abstract base class the manager is
    programmed against.  [R] is the state of a backend; every operation
    may change it and may raise. *)
Class SessionRepository (R : Type) : Type := {
  create_session : Session -> M R Session;
  read_session : string -> M R (option Session);
  create_agent : string -> SessionAgent -> M R unit;
  read_agent : string -> string -> M R (option SessionAgent);
  update_agent : string -> SessionAgent -> M R unit;
  create_message : string -> string -> SessionMessage -> M R unit;
  update_message : string -> string -> SessionMessage -> M R unit;
  list_messages : string -> string -> M R (list SessionMessage)
}.

(** ** The manager *)

(** The fields of a [RepositorySessionManager] other than the repository
    handle. *)
Record RepositorySessionManager : Type := {
  session_id : string;
  session : Session;
  _latest_agent_message : gmap string (option SessionMessage)
}.

(** The manager after the dictionary store [_latest_agent_message[key] = value]. *)
Definition with_latest (key : string) (value : option SessionMessage)
    (mgr : RepositorySessionManager) : RepositorySessionManager :=
  {| session_id := session_id mgr;
     session := session mgr;
     _latest_agent_message := <[key := value]> (_latest_agent_message mgr) |}.

(** The index [append_message] computes from the cached latest message:
    [0 if this is the first message, otherwise increment the previous
    index].  In [if latest_agent_message:] the tested value is an
    [Optional[SessionMessage]]; a SessionMessage is a plain data object
    defining neither [__bool__] nor [__len__], so every instance is true
    and only [None] is false. *)
Definition next_index (latest_agent_message : option SessionMessage) : Z :=
  match latest_agent_message with
  | Some latest => message_id latest + 1
  | None => 0
  end.

Section Manager.
Context {R : Type} `{SessionRepository R}.

(** The repository object together with the calls made on it so far,
    oldest first. *)
Record backend : Type := {
  repository : R;
  calls : list call
}.

(** The manager and the repository it holds.  Records are values: the
    manager is the only holder of the SessionMessage objects it caches, and
    a repository keeps what it was given at the time of the call. *)
Record world : Type := {
  self : RepositorySessionManager;
  session_repository : backend
}.

(** A call [self.session_repository.op(...)]: it is recorded, then run
    against the backend; whatever it raises propagates. *)
Definition invoke {A : Type} (c : call) (op : M R A) : M backend A :=
  fun b => match op (repository b) with
           | (r', res) => ({| repository := r'; calls := calls b ++ [c] |}, res)
           end.

Definition on_repository {A : Type} (m : M backend A) : M world A :=
  fun w => match m (session_repository w) with
           | (b', res) => ({| self := self w; session_repository := b' |}, res)
           end.

(** The assignment [self._latest_agent_message[key] = value]. *)
Definition set_latest (key : string) (value : option SessionMessage) : M world unit :=
  modify (fun w =>
    {| self := with_latest key value (self w);
       session_repository := session_repository w |}).

Definition __init__ (session_id : string) : M backend RepositorySessionManager :=
  session <- invoke (ReadSession session_id) (read_session session_id) ;;
  session <- match session with
             | None =>
                 let session := {| s_session_id := session_id; s_session_type := AGENT |} in
                 invoke (CreateSession session) (create_session session) ;;
                 ret session
             | Some session => ret session
             end ;;
  ret {| session_id := session_id; session := session; _latest_agent_message := ∅ |}.

(** [RepositorySessionManager(session_id, session_repository)]: the
    world after the constructor, or the exception it raised with the
    backend as the constructor left it. *)
Definition new (session_id : string) (r : R) : backend * result world :=
  match __init__ session_id {| repository := r; calls := [] |} with
  | (b, Return mgr) => (b, Return {| self := mgr; session_repository := b |})
  | (b, Raise e) => (b, Raise e)
  end.

Definition append_message (m : Message) (agent : Agent) : M world unit :=
  cache <- gets (fun w => _latest_agent_message (self w)) ;;
  match cache !! agent_id agent with
  | None => raise (KeyError (agent_id agent))
  | Some latest_agent_message =>
      let session_message := from_message m (next_index latest_agent_message) in
      set_latest (agent_id agent) (Some session_message) ;;
      sid <- gets (fun w => session_id (self w)) ;;
      on_repository
        (invoke (CreateMessage sid (agent_id agent) session_message)
                (create_message sid (agent_id agent) session_message))
  end.

Definition redact_latest_message (r : Message) (agent : Agent) : M world unit :=
  cache <- gets (fun w => _latest_agent_message (self w)) ;;
  match cache !! agent_id agent with
  | None => raise (KeyError (agent_id agent))
  | Some None => raise (SessionException "No message to redact.")
  | Some (Some latest_agent_message) =>
      let latest_agent_message := set_redact_message latest_agent_message r in
      set_latest (agent_id agent) (Some latest_agent_message) ;;
      sid <- gets (fun w => session_id (self w)) ;;
      on_repository
        (invoke (UpdateMessage sid (agent_id agent) latest_agent_message)
                (update_message sid (agent_id agent) latest_agent_message))
  end.

Definition sync_agent (agent : Agent) : M world unit :=
  sid <- gets (fun w => session_id (self w)) ;;
  on_repository
    (invoke (UpdateAgent sid (from_agent agent))
            (update_agent sid (from_agent agent))).

(** The loop [for i, message in enumerate(agent.messages)] of
    [initialize], entered with counter [i]. *)
Fixpoint create_messages (sid aid : string) (i : Z) (ms : list Message) : M world unit :=
  match ms with
  | [] => ret tt
  | m :: ms' =>
      let session_message := from_message m i in
      on_repository
        (invoke (CreateMessage sid aid session_message)
                (create_message sid aid session_message)) ;;
      create_messages sid aid (i + 1) ms'
  end.

(** [initialize] assigns [agent.messages] and [agent.state] on the
    restore path, after every call that can raise; the agent object
    after a call that returned is the value computed here, and a call
    that raised left the agent as it was. *)
Definition initialize (agent : Agent) : M world Agent :=
  cache <- gets (fun w => _latest_agent_message (self w)) ;;
  match cache !! agent_id agent with
  | Some _ =>
      raise (SessionException "The `agent_id` of an agent must be unique in a session.")
  | None =>
      set_latest (agent_id agent) None ;;
      sid <- gets (fun w => session_id (self w)) ;;
      session_agent <- on_repository
        (invoke (ReadAgent sid (agent_id agent)) (read_agent sid (agent_id agent))) ;;
      match session_agent with
      | None =>
          let session_agent := from_agent agent in
          on_repository
            (invoke (CreateAgent sid session_agent) (create_agent sid session_agent)) ;;
          create_messages sid (agent_id agent) 0 (messages agent) ;;
          ret agent
      | Some session_agent =>
          session_messages <- on_repository
            (invoke (ListMessages sid (agent_id agent))
                    (list_messages sid (agent_id agent))) ;;
          ret {| agent_id := agent_id agent;
                 messages := map to_message session_messages;
                 state := AgentState (sa_state session_agent) |}
      end
  end.

End Manager.
End Entities.

Arguments SessionMessage : clear implicits.
Arguments Agent : clear implicits.
Arguments SessionAgent : clear implicits.
Arguments call : clear implicits.
Arguments SessionRepository : clear implicits.
Arguments RepositorySessionManager : clear implicits.
Arguments backend : clear implicits.
Arguments world : clear implicits.

(** ** Histories of calls *)

Section Driver.
Context {Message State R : Type} `{!SessionRepository Message State R}.

(** The four lifecycle calls an orchestrator makes on one manager. *)
Inductive op : Type :=
| Initialize (agent : Agent Message State)
| AppendMessage (m : Message) (agent : Agent Message State)
| RedactLatestMessage (r : Message) (agent : Agent Message State)
| SyncAgent (agent : Agent Message State).

Definition perform (o : op) : M (world Message State R) unit :=
  match o with
  | Initialize agent => _ <- initialize agent ;; ret tt
  | AppendMessage m agent => append_message m agent
  | RedactLatestMessage r agent => redact_latest_message r agent
  | SyncAgent agent => sync_agent agent
  end.

(** The world a call leaves behind, whether it returned or raised. *)
Definition after (o : op) (w : world Message State R) : world Message State R :=
  fst (perform o w).

(** The world after a history of calls, oldest first; the caller goes on
    after a call that raised. *)
Definition after_all (os : list op) (w : world Message State R) : world Message State R :=
  foldl (fun w o => after o w) w os.

(** The calls a computation adds to the record of the backend. *)
Definition issued {A : Type} (m : M (world Message State R) A)
    (w : world Message State R) : list (call Message State) :=
  drop (length (calls (session_repository w))) (calls (session_repository (fst (m w)))).

(** The latest-message cache entry of an agent: [None] when the key is
    absent, [Some None] when it maps to Python's [None]. *)
Definition latest (w : world Message State R) (agent_id : string)
    : option (option (SessionMessage Message)) :=
  _latest_agent_message (self w) !! agent_id.

(** The agent id an [Initialize] call is made for. *)
Definition initializes (o : op) : option string :=
  match o with
  | Initialize agent => Some (agent_id agent)
  | _ => None
  end.
End Driver.

Arguments op : clear implicits.

(** ** An in-memory repository *)

Section Memory.
Context {Message State : Type}.

(** Modelled from the spec: no repository backend is part of the source;
    this one keeps the three kinds of record in dictionaries, with the
    messages of an agent held in ascending [message_id] order.  When
    [available] is false every operation fails with an I/O error. *)
Record MemoryRepository : Type := {
  available : bool;
  sessions : gmap string Session;
  agents : gmap (string * string) (SessionAgent State);
  stored_messages : gmap (string * string) (list (SessionMessage Message))
}.

(** Put a record at its place in an ascending list, overwriting the
    record with the same [message_id] if there is one. *)
Fixpoint put_message (sm : SessionMessage Message) (l : list (SessionMessage Message))
    : list (SessionMessage Message) :=
  match l with
  | [] => [sm]
  | x :: l' =>
      if decide (message_id sm < message_id x) then sm :: x :: l'
      else if decide (message_id sm = message_id x) then sm :: l'
      else x :: put_message sm l'
  end.

(** Whether a record with the given [message_id] is stored. *)
Definition has_message (i : Z) (l : list (SessionMessage Message)) : bool :=
  existsb (fun x => bool_decide (message_id x = i)) l.

(** Every operation of the backend fails while it is not [available]. *)
Definition guarded {A : Type} (f : M MemoryRepository A) : M MemoryRepository A :=
  fun r => if available r then f r else (r, Raise (OtherError "I/O failure")).

(** The messages stored for an agent of a session, none if the key is new. *)
Definition messages_of (sid aid : string) (r : MemoryRepository)
    : list (SessionMessage Message) :=
  default [] (stored_messages r !! (sid, aid)).

(** The three dictionary stores of the backend. *)
Definition with_messages (sid aid : string) (l : list (SessionMessage Message))
    (r : MemoryRepository) : MemoryRepository :=
  {| available := available r; sessions := sessions r; agents := agents r;
     stored_messages := <[(sid, aid) := l]> (stored_messages r) |}.

Definition with_agent (sid : string) (sa : SessionAgent State)
    (r : MemoryRepository) : MemoryRepository :=
  {| available := available r; sessions := sessions r;
     agents := <[(sid, sa_agent_id sa) := sa]> (agents r);
     stored_messages := stored_messages r |}.

Definition with_session (s : Session) (r : MemoryRepository) : MemoryRepository :=
  {| available := available r; sessions := <[s_session_id s := s]> (sessions r);
     agents := agents r; stored_messages := stored_messages r |}.

(** Modelled from the spec: the operations of the repository contract.
    Creating stores the record, reading returns it or [None], updating
    overwrites a record that exists and fails when it does not, and
    [list_messages] returns an agent's messages ascending by [message_id]. *)
#[export] Instance memory_repository : SessionRepository Message State MemoryRepository := {|
  create_session s := guarded (modify (with_session s) ;; ret s);
  read_session sid := guarded (gets (fun r => sessions r !! sid));
  create_agent sid sa := guarded (modify (with_agent sid sa));
  read_agent sid aid := guarded (gets (fun r => agents r !! (sid, aid)));
  update_agent sid sa := guarded (
    known <- gets (fun r => agents r !! (sid, sa_agent_id sa)) ;;
    match known with
    | Some _ => modify (with_agent sid sa)
    | None => raise (OtherError "agent not found")
    end);
  create_message sid aid sm := guarded (
    l <- gets (messages_of sid aid) ;;
    modify (with_messages sid aid (put_message sm l)));
  update_message sid aid sm := guarded (
    l <- gets (messages_of sid aid) ;;
    if has_message (message_id sm) l
    then modify (with_messages sid aid (put_message sm l))
    else raise (OtherError "message not found"));
  list_messages sid aid := guarded (gets (messages_of sid aid))
|}.

(** A reachable backend holding nothing. *)
Definition empty_repository : MemoryRepository :=
  {| available := true; sessions := ∅; agents := ∅; stored_messages := ∅ |}.
End Memory.

Arguments MemoryRepository : clear implicits.

(** Whether a call reads or writes a Session record. *)
Definition is_session_call {Message State : Type} (c : call Message State) : bool :=
  match c with
  | CreateSession _ | ReadSession _ => true
  | _ => false
  end.

(** The stored record of an agent with a given [message_id], if any. *)
Definition lookup_message {Message : Type} (i : Z) (l : list (SessionMessage Message))
    : option (SessionMessage Message) :=
  find (fun x => bool_decide (message_id x = i)) l.

(** ** Concrete sessions

    Messages are strings and agent state maps names to integers. *)

Module Scenario.
Definition session_s1 : Session := {| s_session_id := "s1"; s_session_type := AGENT |}.

Definition manager_s1 : RepositorySessionManager string :=
  {| session_id := "s1"; session := session_s1; _latest_agent_message := ∅ |}.

(** Agent [a1] with no message, and with one message. *)
Definition a1 : Agent string (gmap string Z) :=
  {| agent_id := "a1"; messages := []; state := ∅ |}.

Definition a1_talking : Agent string (gmap string Z) :=
  {| agent_id := "a1"; messages := ["hello"]; state := ∅ |}.

(** The world right after [RepositorySessionManager("s1", repository)] on
    an empty repository. *)
Definition fresh : world string (gmap string Z) (MemoryRepository string (gmap string Z)) :=
  {| self := manager_s1;
     session_repository :=
       {| repository := with_session session_s1 empty_repository;
          calls := [ReadSession "s1"; CreateSession session_s1] |} |}.

(** A repository that already holds agent [a1] of session [s1] with state
    [{"x": 1}] and two messages. *)
Definition persisted : MemoryRepository string (gmap string Z) :=
  {| available := true;
     sessions := {["s1" := session_s1]};
     agents := {[("s1", "a1") := {| sa_agent_id := "a1"; sa_state := {["x" := 1]} |}]};
     stored_messages := {[("s1", "a1") := [from_message "id0" 0; from_message "id1" 1]]} |}.

(** The world right after the constructor on [persisted]. *)
Definition restored : world string (gmap string Z) (MemoryRepository string (gmap string Z)) :=
  {| self := manager_s1;
     session_repository := {| repository := persisted; calls := [ReadSession "s1"] |} |}.

(** The repository becomes unreachable: the manager is as it was, every
    later repository call fails. *)
Definition unplug (w : world string (gmap string Z) (MemoryRepository string (gmap string Z)))
    : world string (gmap string Z) (MemoryRepository string (gmap string Z)) :=
  {| self := self w;
     session_repository :=
       {| repository :=
            {| available := false;
               sessions := sessions (repository (session_repository w));
               agents := agents (repository (session_repository w));
               stored_messages := stored_messages (repository (session_repository w)) |};
          calls := calls (session_repository w) |} |}.
End Scenario.

(** ** Observations on calls and histories *)

Section Observations.
Context {Message State : Type}.

(** The session a call is addressed to. *)
Definition call_session_id (c : call Message State) : string :=
  match c with
  | CreateSession s => s_session_id s
  | ReadSession sid => sid
  | CreateAgent sid _ => sid
  | ReadAgent sid _ => sid
  | UpdateAgent sid _ => sid
  | CreateMessage sid _ _ => sid
  | UpdateMessage sid _ _ => sid
  | ListMessages sid _ => sid
  end.

(** The agent a call is addressed to; the two Session calls address none. *)
Definition call_agent_id (c : call Message State) : option string :=
  match c with
  | CreateSession _ | ReadSession _ => None
  | CreateAgent _ sa => Some (sa_agent_id sa)
  | ReadAgent _ aid => Some aid
  | UpdateAgent _ sa => Some (sa_agent_id sa)
  | CreateMessage _ aid _ => Some aid
  | UpdateMessage _ aid _ => Some aid
  | ListMessages _ aid => Some aid
  end.

(** The records passed to [create_message] for one agent, in call order. *)
Definition created_for (aid : string) (cs : list (call Message State))
    : list (SessionMessage Message) :=
  omap (fun c => match c with
                 | CreateMessage _ aid' sm => if decide (aid' = aid) then Some sm else None
                 | _ => None
                 end) cs.

(** The agent a lifecycle call is made for. *)
Definition op_agent (p : op Message State) : Agent Message State :=
  match p with
  | Initialize a => a
  | AppendMessage _ a => a
  | RedactLatestMessage _ a => a
  | SyncAgent a => a
  end.

(** The contents passed to [append_message] for one agent, in call order. *)
Definition appended_to (aid : string) (os : list (op Message State)) : list Message :=
  omap (fun p => match p with
                 | AppendMessage m a => if decide (agent_id a = aid) then Some m else None
                 | _ => None
                 end) os.
End Observations.

(** The repository calls a history of lifecycle calls adds to the record. *)
Definition history_calls {Message State R : Type} `{!SessionRepository Message State R}
    (os : list (op Message State)) (w : world Message State R) : list (call Message State) :=
  drop (length (calls (session_repository w))) (calls (session_repository (after_all os w))).

(** ** A repository with a budget

    A test double: the state is the number of operations the backend will
    still serve.  Each operation uses one up and answers as an empty store
    would; with none left it raises. *)

Section Budget.
Context {Message State : Type}.

Definition spend {A : Type} (answer : A) : M nat A :=
  fun budget => match budget with
                | O => (O, Raise (OtherError "quota exceeded"))
                | S budget' => (budget', Return answer)
                end.

#[export] Instance budget_repository : SessionRepository Message State nat := {|
  create_session s := spend s;
  read_session _ := spend None;
  create_agent _ _ := spend tt;
  read_agent _ _ := spend None;
  update_agent _ _ := spend tt;
  create_message _ _ _ := spend tt;
  update_message _ _ _ := spend tt;
  list_messages _ _ := spend []
|}.
End Budget.

(** * The Baseten model provider

    A shallow embedding of [strands/models/baseten.py]: the constructor of
    [BasetenModel] with its choice of base URL, [update_config],
    [get_config], the chunk generator [stream] and [structured_output]. *)

Module Baseten.

(** The exceptions the provider's own code raises, and whatever the client
    raises ([ApiError]). *)
Inductive error : Type :=
| UnboundLocalError (name : string)
| ValueError (msg : string)
| KeyError (key : string)
| ApiError (detail : string).

(** Truth value of an [Optional[str]]: [None] and the empty string are
    false. *)
Definition truthy (o : option string) : bool :=
  match o with
  | Some s => negb (String.eqb s "")
  | None => false
  end.

Section Config.
(** Configuration and client arguments are dictionaries of arbitrary
    values; [str] is how a string literal becomes one. *)
Context {Any : Type} (str : string -> Any).

(** A provider instance.  [client] stands for the object [openai.OpenAI]
    builds from the unpacked [client_args]: it records the keyword
    arguments the client was built from. *)
Record BasetenModel : Type := {
  config : gmap string Any;
  client : gmap string Any
}.

Definition default_base_url : string := "https://inference.baseten.co/v1".

(** The dictionary [client_args or {}] and the two branches that set its
    [base_url] entry. *)
Definition resolve_client_args (client_args : option (gmap string Any))
    (config : gmap string Any) : gmap string Any :=
  let client_args := default ∅ client_args in
  match client_args !! "base_url", config !! "base_url" with
  | None, None => <["base_url" := str default_base_url]> client_args
  | _, Some base_url => <["base_url" := base_url]> client_args
  | Some _, None => client_args
  end.

(** [BasetenModel(client_args, **model_config)].  The second component is
    the dictionary the caller passed as [client_args], as the call leaves
    it: [client_args or {}] is the caller's own dictionary exactly when that
    is non-empty, and the stores to ["base_url"] then land in it; an empty
    dictionary is replaced by a new one and stays empty. *)
Definition __init__ (client_args : option (gmap string Any))
    (model_config : gmap string Any) : BasetenModel * option (gmap string Any) :=
  let config := model_config in
  let resolved := resolve_client_args client_args config in
  ({| config := config; client := resolved |},
   match client_args with
   | Some passed => if decide (passed = ∅) then Some passed else Some resolved
   | None => None
   end).

(** [self.config.update(model_config)]: the given keys are overwritten, the
    others kept. *)
Definition update_config (model_config : gmap string Any) (self : BasetenModel)
    : BasetenModel :=
  {| config := model_config ∪ config self; client := client self |}.

Definition get_config (self : BasetenModel) : gmap string Any := config self.
End Config.

Arguments BasetenModel : clear implicits.

Section Stream.
(** The tool-call deltas and the usage payload come from the client
    library and are passed through; of a tool call only [index] is read. *)
Context {ToolCall Usage : Type} (index : ToolCall -> Z).

(** [choice.delta]: an absent or [None] attribute is [None]. *)
Record ChoiceDelta : Type := {
  content : option string;
  reasoning_content : option string;
  tool_calls : option (list ToolCall)
}.

Record Choice : Type := {
  delta : ChoiceDelta;
  finish_reason : option string
}.

(** One event of the streamed response; [choices] is [None] when the
    attribute is missing or [None]. *)
Record ChatCompletionChunk : Type := {
  choices : option (list Choice);
  usage : Usage
}.

(** The values stored under ["data"]. *)
Inductive payload : Type :=
| Text (s : string)
| Tool (t : ToolCall)
| FinishReason (r : option string)
| UsageOf (u : Usage).

(** A yielded dictionary: the key ["chunk_type"] is always there,
    ["data_type"] and ["data"] only in some chunks. *)
Record chunk : Type := {
  chunk_type : string;
  data_type : option string;
  data : option payload
}.

(** [tool_calls.setdefault(tool_call.index, []).append(tool_call)] on a
    dictionary kept in insertion order.  Every list in it has a first
    element, kept apart from the rest. *)
Fixpoint add_tool_call (t : ToolCall) (seen : list (Z * (ToolCall * list ToolCall)))
    : list (Z * (ToolCall * list ToolCall)) :=
  match seen with
  | [] => [(index t, (t, []))]
  | (i, (t0, ts)) :: rest =>
      if decide (i = index t) then (i, (t0, ts ++ [t])) :: rest
      else (i, (t0, ts)) :: add_tool_call t rest
  end.

(** The local variables of [stream] that the first loop writes, and the
    chunks yielded so far. *)
Record locals : Type := {
  yielded : list chunk;
  seen_tool_calls : list (Z * (ToolCall * list ToolCall));
  choice : option Choice;
  event : option ChatCompletionChunk
}.

(** The chunks the two tests on [choice.delta.content] and
    [choice.delta.reasoning_content] yield for one choice. *)
Definition delta_chunks (ch : Choice) : list chunk :=
  (if truthy (content (delta ch))
   then [{| chunk_type := "content_delta"; data_type := Some "text";
            data := Text <$> content (delta ch) |}]
   else [])
  ++ (if truthy (reasoning_content (delta ch))
      then [{| chunk_type := "content_delta"; data_type := Some "reasoning_content";
               data := Text <$> reasoning_content (delta ch) |}]
      else []).

(** [choice.delta.tool_calls or []]. *)
Definition tool_deltas (ch : Choice) : list ToolCall :=
  default [] (tool_calls (delta ch)).

(** The body of the first loop from [choice = event.choices[0]] up to the
    test of [finish_reason]. *)
Definition on_choice (ch : Choice) (st : locals) : locals :=
  {| yielded := yielded st ++ delta_chunks ch;
     seen_tool_calls :=
       foldl (fun seen t => add_tool_call t seen) (seen_tool_calls st) (tool_deltas ch);
     choice := Some ch;
     event := event st |}.

(** [for event in response:] with its [continue] and [break]; the second
    component is what is left of the response iterator. *)
Fixpoint first_loop (response : list ChatCompletionChunk) (st : locals)
    : locals * list ChatCompletionChunk :=
  match response with
  | [] => (st, [])
  | ev :: rest =>
      let st := {| yielded := yielded st; seen_tool_calls := seen_tool_calls st;
                   choice := choice st; event := Some ev |} in
      match choices ev with
      | Some (ch :: _) =>
          let st := on_choice ch st in
          if truthy (finish_reason ch) then (st, rest) else first_loop rest st
      | _ => first_loop rest st
      end
  end.

(** The three kinds of chunk yielded for one entry of [tool_calls]. *)
Definition tool_block (tool_deltas : ToolCall * list ToolCall) : list chunk :=
  [{| chunk_type := "content_start"; data_type := Some "tool";
      data := Some (Tool (fst tool_deltas)) |}]
  ++ map (fun tool_delta => {| chunk_type := "content_delta"; data_type := Some "tool";
                               data := Some (Tool tool_delta) |})
         (fst tool_deltas :: snd tool_deltas)
  ++ [{| chunk_type := "content_stop"; data_type := Some "tool"; data := None |}].

(** [stream], applied to the events the client's [create] call delivers:
    the chunks the generator yields, in order, and the exception that ended
    it if one did.  Reading [choice] or [event] before the loop has bound it
    raises [UnboundLocalError]. *)
Definition stream (response : list ChatCompletionChunk) : list chunk * option error :=
  let '(st, remaining) :=
    first_loop response
      {| yielded := [{| chunk_type := "message_start"; data_type := None; data := None |};
                     {| chunk_type := "content_start"; data_type := Some "text";
                        data := None |}];
         seen_tool_calls := [];
         choice := None;
         event := None |} in
  let out :=
    yielded st
    ++ [{| chunk_type := "content_stop"; data_type := Some "text"; data := None |}]
    ++ flat_map (fun entry => tool_block (snd entry)) (seen_tool_calls st) in
  match choice st with
  | None => (out, Some (UnboundLocalError "choice"))
  | Some ch =>
      let out := out ++ [{| chunk_type := "message_stop"; data_type := None;
                            data := Some (FinishReason (finish_reason ch)) |}] in
      match (match last remaining with Some ev => Some ev | None => event st end) with
      | None => (out, Some (UnboundLocalError "event"))
      | Some ev =>
          (out ++ [{| chunk_type := "metadata"; data_type := None;
                      data := Some (UsageOf (usage ev)) |}], None)
      end
  end.

(** The choices the first loop handles: the first choice of each event
    that has one, up to and including the first with a finish reason. *)
Fixpoint handled (response : list ChatCompletionChunk) : list Choice :=
  match response with
  | [] => []
  | ev :: rest =>
      match choices ev with
      | Some (ch :: _) => ch :: (if truthy (finish_reason ch) then [] else handled rest)
      | _ => handled rest
      end
  end.

(** The deltas of one entry of [tool_calls], first one included. *)
Definition group (tool_deltas : ToolCall * list ToolCall) : list ToolCall :=
  fst tool_deltas :: snd tool_deltas.

(** [tool_calls.get(i, [])]: the deltas stored under one index. *)
Fixpoint deltas_at (i : Z) (seen : list (Z * (ToolCall * list ToolCall))) : list ToolCall :=
  match seen with
  | [] => []
  | (j, tool_deltas) :: rest =>
      if decide (j = i) then group tool_deltas else deltas_at i rest
  end.

(** The tool calls among payloads. *)
Definition tools (ps : list payload) : list ToolCall :=
  omap (fun p => match p with Tool t => Some t | _ => None end) ps.

(** The strings among payloads. *)
Definition texts (ps : list payload) : list string :=
  omap (fun p => match p with Text s => Some s | _ => None end) ps.

(** The payloads of the [content_delta] chunks of one data type. *)
Definition deltas_of (kind : string) (out : list chunk) : list payload :=
  omap (fun c => if decide (chunk_type c = "content_delta" /\ data_type c = Some kind)
                 then data c else None) out.

(** How many chunks of a given type were yielded. *)
Definition count_type (type : string) (out : list chunk) : nat :=
  length (filter (fun c => chunk_type c = type) out).
End Stream.

Arguments ChoiceDelta : clear implicits.
Arguments Choice : clear implicits.
Arguments ChatCompletionChunk : clear implicits.
Arguments payload : clear implicits.
Arguments chunk : clear implicits.
Arguments locals : clear implicits.

Section StructuredOutput.
(** [Any] as above; [T] is the output model, [truth] the truth value of one
    of its instances (the test [if parsed:]). *)
Context {Any T : Type} (truth : T -> bool).

(** The first choice whose [message.parsed] is an instance of the output
    model; a choice is [Some parsed] when it is one. *)
Fixpoint first_parsed (response_choices : list (option T)) : option T :=
  match response_choices with
  | [] => None
  | Some parsed :: _ => Some parsed
  | None :: rest => first_parsed rest
  end.

(** [structured_output]: the outputs yielded and the exception that ended
    the generator.  [parse] stands for formatting the prompt and calling
    the client's [parse] with the model id; it gives the choices of the
    response, or raises.  The subscript [self.get_config()["model_id"]] is
    evaluated first. *)
Definition structured_output (config : gmap string Any)
    (parse : Any -> error + list (option T)) : list T * option error :=
  match config !! "model_id" with
  | None => ([], Some (KeyError "model_id"))
  | Some model_id =>
      match parse model_id with
      | inl e => ([], Some e)
      | inr response_choices =>
          if decide (1 < length response_choices)%nat
          then ([], Some (ValueError "Multiple choices found in the Baseten response."))
          else
            match first_parsed response_choices with
            | Some parsed =>
                if truth parsed then ([parsed], None)
                else ([], Some (ValueError
                  "No valid tool use or tool use input was found in the Baseten response."))
            | None =>
                ([], Some (ValueError
                  "No valid tool use or tool use input was found in the Baseten response."))
            end
      end
  end.
End StructuredOutput.

End Baseten.

(** * Properties *)

(** ** The manager over an arbitrary repository *)

Section Properties.
Context {Message State R : Type} `{!SessionRepository Message State R}.
Implicit Types (w : world Message State R) (a : Agent Message State).
Implicit Types (m r : Message) (o : option (SessionMessage Message)).
Implicit Types (os : list (op Message State)).

Lemma issued_app {A : Type} (c : M (world Message State R) A) w l :
  calls (session_repository (fst (c w))) = calls (session_repository w) ++ l ->
  issued c w = l.
Proof. unfold issued. intros ->. apply drop_app_length. Qed.

(** *** Calls on an agent id the cache does not know *)

Lemma append_message_unknown w m a :
  latest w (agent_id a) = None ->
  append_message m a w = (w, Raise (KeyError (agent_id a))).
Proof. unfold latest, append_message, bind, gets, raise. intros ->. reflexivity. Qed.

Lemma redact_latest_message_unknown w r a :
  latest w (agent_id a) = None ->
  redact_latest_message r a w = (w, Raise (KeyError (agent_id a))).
Proof. unfold latest, redact_latest_message, bind, gets, raise. intros ->. reflexivity. Qed.

Lemma initialize_known w a o :
  latest w (agent_id a) = Some o ->
  initialize a w =
    (w, Raise (SessionException "The `agent_id` of an agent must be unique in a session.")).
Proof. unfold latest, initialize, bind, gets, raise. intros ->. reflexivity. Qed.

(** *** What each call does to the manager and to the repository *)

Lemma append_message_known w m a o :
  latest w (agent_id a) = Some o ->
  let sm := from_message m (next_index o) in
  let res := create_message (session_id (self w)) (agent_id a) sm
               (repository (session_repository w)) in
  append_message m a w =
    ({| self := with_latest (agent_id a) (Some sm) (self w);
        session_repository :=
          {| repository := fst res;
             calls := calls (session_repository w)
                      ++ [CreateMessage (session_id (self w)) (agent_id a) sm] |} |},
     snd res).
Proof.
  unfold latest, append_message, bind, gets, set_latest, modify, on_repository, invoke.
  intros ->. simpl. destruct (create_message _ _ _ _) as [r' [u|e]]; reflexivity.
Qed.

Lemma redact_latest_message_known w r a sm :
  latest w (agent_id a) = Some (Some sm) ->
  let sm' := set_redact_message sm r in
  let res := update_message (session_id (self w)) (agent_id a) sm'
               (repository (session_repository w)) in
  redact_latest_message r a w =
    ({| self := with_latest (agent_id a) (Some sm') (self w);
        session_repository :=
          {| repository := fst res;
             calls := calls (session_repository w)
                      ++ [UpdateMessage (session_id (self w)) (agent_id a) sm'] |} |},
     snd res).
Proof.
  unfold latest, redact_latest_message, bind, gets, set_latest, modify, on_repository, invoke.
  intros ->. simpl. destruct (update_message _ _ _ _) as [r' [u|e]]; reflexivity.
Qed.

Lemma sync_agent_eq w a :
  let res := update_agent (session_id (self w)) (from_agent a)
               (repository (session_repository w)) in
  sync_agent a w =
    ({| self := self w;
        session_repository :=
          {| repository := fst res;
             calls := calls (session_repository w)
                      ++ [UpdateAgent (session_id (self w)) (from_agent a)] |} |},
     snd res).
Proof.
  unfold sync_agent, bind, gets, on_repository, invoke. simpl.
  destruct (update_agent _ _ _) as [r' [u|e]]; reflexivity.
Qed.
(** *** The loop of [initialize] *)

Lemma create_messages_self sid aid ms : forall i w,
  self (fst (create_messages sid aid i ms w)) = self w.
Proof.
  induction ms as [|m ms IH]; intros i w; [reflexivity|].
  simpl. unfold bind at 1. unfold on_repository, invoke.
  destruct (create_message _ _ _ _) as [r' [u|e]]; simpl; [|reflexivity].
  rewrite IH. reflexivity.
Qed.

Lemma create_messages_calls sid aid ms : forall i w,
  exists l,
    calls (session_repository (fst (create_messages sid aid i ms w)))
      = calls (session_repository w) ++ l
    /\ Forall (fun c => is_session_call c = false) l.
Proof.
  induction ms as [|m ms IH]; intros i w.
  - exists []. simpl. rewrite app_nil_r. auto.
  - simpl. unfold bind at 1. unfold on_repository, invoke.
    destruct (create_message _ _ _ _) as [r' [u|e]]; simpl.
    + destruct (IH (i + 1) {| self := self w;
                   session_repository :=
                     {| repository := r';
                        calls := calls (session_repository w)
                                 ++ [CreateMessage sid aid (from_message m i)] |} |})
        as (l & Hl & Hf).
      exists (CreateMessage sid aid (from_message m i) :: l). split.
      * rewrite Hl. simpl. rewrite <- app_assoc. reflexivity.
      * constructor; [reflexivity|exact Hf].
    + exists [CreateMessage sid aid (from_message m i)]. split; [reflexivity|].
      constructor; [reflexivity|constructor].
Qed.

(** *** The manager's own fields after each call *)

Lemma append_message_self w m a :
  self (fst (append_message m a w)) =
    match latest w (agent_id a) with
    | Some o => with_latest (agent_id a) (Some (from_message m (next_index o))) (self w)
    | None => self w
    end.
Proof.
  destruct (latest w (agent_id a)) as [o|] eqn:E.
  - rewrite (append_message_known _ _ _ _ E). reflexivity.
  - rewrite (append_message_unknown _ _ _ E). reflexivity.
Qed.

Lemma redact_latest_message_self w r a :
  self (fst (redact_latest_message r a w)) =
    match latest w (agent_id a) with
    | Some (Some sm) => with_latest (agent_id a) (Some (set_redact_message sm r)) (self w)
    | _ => self w
    end.
Proof.
  destruct (latest w (agent_id a)) as [[sm|]|] eqn:E.
  - rewrite (redact_latest_message_known _ _ _ _ E). reflexivity.
  - unfold latest in E.
    unfold redact_latest_message, bind, gets, raise. rewrite E. reflexivity.
  - rewrite (redact_latest_message_unknown _ _ _ E). reflexivity.
Qed.

Lemma sync_agent_self w a : self (fst (sync_agent a w)) = self w.
Proof. rewrite sync_agent_eq. reflexivity. Qed.

Lemma initialize_self w a :
  self (fst (initialize a w)) =
    match latest w (agent_id a) with
    | Some _ => self w
    | None => with_latest (agent_id a) None (self w)
    end.
Proof.
  destruct (latest w (agent_id a)) as [o|] eqn:E.
  - rewrite (initialize_known _ _ _ E). reflexivity.
  - unfold latest in E.
    unfold initialize, bind at 1, gets. rewrite E.
    unfold bind at 1, set_latest, modify.
    unfold bind at 1, gets. unfold bind at 1, on_repository at 1, invoke at 1. simpl.
    destruct (read_agent _ _ _) as [r1 [[sa|]|e]]; simpl; [| |reflexivity].
    + unfold bind, on_repository, invoke, ret. simpl.
      destruct (list_messages _ _ _) as [r2 [l|e]]; reflexivity.
    + unfold bind at 1, on_repository at 1, invoke at 1. simpl.
      destruct (create_agent _ _ _) as [r2 [u|e]]; simpl; [|reflexivity].
      unfold bind, ret.
      match goal with
      | |- context [create_messages ?s ?k ?i ?ms ?w0] =>
          pose proof (create_messages_self s k ms i w0) as Hs;
          destruct (create_messages s k i ms w0) as [w' [u'|e]]
      end; simpl in *; exact Hs.
Qed.
Lemma initialize_calls w a :
  exists l,
    calls (session_repository (fst (initialize a w))) = calls (session_repository w) ++ l
    /\ Forall (fun c => is_session_call c = false) l.
Proof.
  destruct (latest w (agent_id a)) as [o|] eqn:E.
  - rewrite (initialize_known _ _ _ E). exists []. simpl. rewrite app_nil_r. auto.
  - unfold latest in E.
    unfold initialize, bind at 1, gets. rewrite E.
    unfold bind at 1, set_latest, modify.
    unfold bind at 1, gets. unfold bind at 1, on_repository at 1, invoke at 1. simpl.
    destruct (read_agent _ _ _) as [r1 [[sa|]|e]]; simpl.
    + unfold bind, on_repository, invoke, ret. simpl.
      destruct (list_messages _ _ _) as [r2 [l|e]]; simpl;
        eexists; (split; [rewrite <- app_assoc; reflexivity|]);
        repeat constructor.
    + unfold bind at 1, on_repository at 1, invoke at 1. simpl.
      destruct (create_agent _ _ _) as [r2 [u|e]]; simpl.
      * unfold bind, ret.
        match goal with
        | |- context [create_messages ?s ?k ?i ?ms ?w0] =>
            destruct (create_messages_calls s k ms i w0) as (l & Hl & Hf);
            destruct (create_messages s k i ms w0) as [w' [u'|e]]
        end; simpl in *; rewrite Hl;
          eexists; (split; [rewrite <- !app_assoc; reflexivity|]);
          simpl; repeat (constructor; [reflexivity|]); exact Hf.
      * eexists; (split; [rewrite <- app_assoc; reflexivity|]); repeat constructor.
    + eexists; (split; [reflexivity|]); repeat constructor.
Qed.

(** *** Cache keys along a history *)

Lemma after_initialize a w : after (Initialize a) w = fst (initialize a w).
Proof.
  unfold after. simpl. unfold bind.
  destruct (initialize a w) as [w' [a'|e]]; reflexivity.
Qed.

Lemma self_after p w :
  self (after p w) = self w
  \/ exists a v,
       self (after p w) = with_latest (agent_id a) v (self w)
       /\ (is_Some (latest w (agent_id a)) \/ p = Initialize a).
Proof.
  destruct p as [a|m a|r a|a].
  - rewrite after_initialize, initialize_self.
    destruct (latest w (agent_id a)); [left; reflexivity|right; eauto].
  - unfold after. simpl. rewrite append_message_self.
    destruct (latest w (agent_id a)) eqn:E; [right|left; reflexivity].
    do 2 eexists. split; [reflexivity|]. left. rewrite E. eauto.
  - unfold after. simpl. rewrite redact_latest_message_self.
    destruct (latest w (agent_id a)) as [[sm|]|] eqn:E; [right|left; reflexivity..].
    do 2 eexists. split; [reflexivity|]. left. rewrite E. eauto.
  - left. apply sync_agent_self.
Qed.

Lemma latest_after_Some p w k :
  is_Some (latest w k) -> is_Some (latest (after p w) k).
Proof.
  intros Hk. destruct (self_after p w) as [Hs|(a & v & Hs & _)];
    unfold latest in *; rewrite Hs; [exact Hk|].
  simpl. rewrite lookup_insert. case_decide; eauto.
Qed.

Lemma latest_after_None p w k :
  latest w k = None -> initializes p <> Some k -> latest (after p w) k = None.
Proof.
  intros Hk Hp. destruct (self_after p w) as [Hs|(a & v & Hs & Ha)];
    unfold latest in *; rewrite Hs; [exact Hk|].
  simpl. rewrite lookup_insert_ne; [exact Hk|].
  intros <-. destruct Ha as [[x Hx] | ->]; [congruence|].
  apply Hp. reflexivity.
Qed.

Lemma latest_after_initialize a w :
  is_Some (latest (after (Initialize a) w) (agent_id a)).
Proof.
  rewrite after_initialize. unfold latest at 1. rewrite initialize_self.
  destruct (latest w (agent_id a)) as [o|] eqn:E; [unfold latest in E; rewrite E; eauto|].
  simpl. rewrite lookup_insert_eq. eauto.
Qed.

Lemma latest_after_all_Some os : forall w k,
  is_Some (latest w k) -> is_Some (latest (after_all os w) k).
Proof.
  induction os as [|p os IH]; intros w k Hk; [exact Hk|].
  simpl. apply IH, latest_after_Some, Hk.
Qed.

Lemma latest_after_all_None os : forall w k,
  latest w k = None ->
  Forall (fun p => initializes p <> Some k) os ->
  latest (after_all os w) k = None.
Proof.
  induction os as [|p os IH]; intros w k Hk Hos; [exact Hk|].
  inversion Hos; subst. simpl. apply IH; [|assumption].
  apply latest_after_None; assumption.
Qed.

Lemma latest_after_all_initialized os : forall w k,
  Exists (fun p => initializes p = Some k) os ->
  is_Some (latest (after_all os w) k).
Proof.
  induction os as [|p os IH]; intros w k Hos; inversion Hos; subst; simpl.
  - apply latest_after_all_Some.
    destruct p as [a| | |]; simpl in *; try discriminate.
    match goal with Hi : Some _ = Some _ |- _ => injection Hi as <- end.
    apply latest_after_initialize.
  - apply IH. assumption.
Qed.
(** *** Runs of [append_message] *)

Lemma after_append_message w m a o :
  latest w (agent_id a) = Some o ->
  latest (after (AppendMessage m a) w) (agent_id a)
    = Some (Some (from_message m (next_index o)))
  /\ session_id (self (after (AppendMessage m a) w)) = session_id (self w)
  /\ calls (session_repository (after (AppendMessage m a) w))
     = calls (session_repository w)
       ++ [CreateMessage (session_id (self w)) (agent_id a) (from_message m (next_index o))].
Proof.
  intros Ho. unfold after. simpl. rewrite (append_message_known _ _ _ _ Ho).
  unfold latest. simpl. rewrite lookup_insert_eq. auto.
Qed.

Lemma after_all_appends a ms : forall w o,
  latest w (agent_id a) = Some o ->
  calls (session_repository (after_all (map (fun m => AppendMessage m a) ms) w))
    = calls (session_repository w)
      ++ imap (fun k m => CreateMessage (session_id (self w)) (agent_id a)
                            (from_message m (next_index o + Z.of_nat k))) ms
  /\ latest (after_all (map (fun m => AppendMessage m a) ms) w) (agent_id a)
     = match last ms with
       | Some m => Some (Some (from_message m (next_index o + Z.of_nat (length ms) - 1)))
       | None => Some o
       end.
Proof.
  induction ms as [|m ms IH]; intros w o Ho.
  - simpl. rewrite app_nil_r. auto.
  - destruct (after_append_message w m a o Ho) as (Hl & Hsid & Hc).
    destruct (IH _ _ Hl) as [IHc IHl]. simpl map. simpl after_all.
    unfold after_all in *. rewrite IHc, IHl, Hc, Hsid. split.
    + rewrite <- app_assoc. simpl. do 2 f_equal.
      * rewrite Z.add_0_r. reflexivity.
      * apply imap_ext. intros k x _. simpl. do 2 f_equal. lia.
    + destruct ms as [|m' ms].
      * simpl. do 3 f_equal. lia.
      * change (last (m :: m' :: ms)) with (last (m' :: ms)).
        destruct (last (m' :: ms)) as [x|] eqn:E.
        -- do 3 f_equal. simpl next_index. simpl length. lia.
        -- apply last_None in E. discriminate.
Qed.
(** *** A call of [initialize] that returned *)

Lemma initialize_agent_id w a w' a' :
  initialize a w = (w', Return a') -> agent_id a' = agent_id a.
Proof.
  unfold initialize, bind at 1, gets.
  destruct (_latest_agent_message (self w) !! agent_id a) as [o|];
    [unfold raise; discriminate|].
  unfold bind at 1, set_latest, modify.
  unfold bind at 1, gets. unfold bind at 1, on_repository at 1, invoke at 1. simpl.
  destruct (read_agent _ _ _) as [r1 [[sa|]|e]]; simpl; [| |discriminate].
  - unfold bind, on_repository, invoke, ret. simpl.
    destruct (list_messages _ _ _) as [r2 [l|e]]; simpl; [|discriminate].
    intros [= _ <-]. reflexivity.
  - unfold bind at 1, on_repository at 1, invoke at 1. simpl.
    destruct (create_agent _ _ _) as [r2 [u|e]]; simpl; [|discriminate].
    unfold bind, ret.
    match goal with
    | |- context [create_messages ?s ?k ?i ?ms ?w0] =>
        destruct (create_messages s k i ms w0) as [w1 [u'|e]]
    end; [|discriminate].
    intros [= _ <-]. reflexivity.
Qed.

Lemma initialize_returned w a w' a' :
  initialize a w = (w', Return a') ->
  latest w (agent_id a) = None /\ latest w' (agent_id a) = Some None.
Proof.
  intros Hi. pose proof (initialize_self w a) as Hs. rewrite Hi in Hs. simpl in Hs.
  destruct (latest w (agent_id a)) as [o|] eqn:E.
  - rewrite (initialize_known _ _ _ E) in Hi. discriminate.
  - split; [reflexivity|]. unfold latest. rewrite Hs. simpl. apply lookup_insert_eq.
Qed.

(** *** The restore branch of [initialize] *)

Lemma initialize_restore w a sa l (r1 r2 : R) :
  latest w (agent_id a) = None ->
  read_agent (session_id (self w)) (agent_id a) (repository (session_repository w))
    = (r1, Return (Some sa)) ->
  list_messages (session_id (self w)) (agent_id a) r1 = (r2, Return l) ->
  initialize a w =
    ({| self := with_latest (agent_id a) None (self w);
        session_repository :=
          {| repository := r2;
             calls := calls (session_repository w)
                      ++ [ReadAgent (session_id (self w)) (agent_id a);
                          ListMessages (session_id (self w)) (agent_id a)] |} |},
     Return {| agent_id := agent_id a;
               messages := map to_message l;
               state := AgentState (sa_state sa) |}).
Proof.
  unfold latest. intros E Hread Hlist.
  unfold initialize, bind at 1, gets. rewrite E.
  unfold bind at 1, set_latest, modify.
  unfold bind at 1, gets. unfold bind at 1, on_repository at 1, invoke at 1. simpl.
  rewrite Hread. simpl.
  unfold bind, on_repository, invoke, ret. simpl. rewrite Hlist.
  rewrite <- app_assoc. reflexivity.
Qed.

(** *** The constructor *)

Lemma new_calls sid (r : R) :
  calls (fst (new sid r)) =
    match read_session sid r with
    | (_, Return None) =>
        [ReadSession sid; CreateSession {| s_session_id := sid; s_session_type := AGENT |}]
    | _ => [ReadSession sid]
    end.
Proof.
  unfold new, __init__, bind at 1, invoke at 1. simpl.
  destruct (read_session sid r) as [r1 [[s|]|e]]; simpl; [reflexivity| |reflexivity].
  unfold bind, invoke, ret. simpl.
  destruct (create_session _ r1) as [r2 [s|e]]; reflexivity.
Qed.

Lemma new_latest sid (r : R) b w k : new sid r = (b, Return w) -> latest w k = None.
Proof.
  unfold new, __init__, bind at 1, invoke at 1. simpl.
  destruct (read_session sid r) as [r1 [[s|]|e]]; simpl.
  - unfold ret. intros [= _ <-]. apply lookup_empty.
  - unfold bind, invoke, ret. simpl.
    destruct (create_session _ r1) as [r2 [s|e]]; simpl; [|discriminate].
    intros [= _ <-]. apply lookup_empty.
  - discriminate.
Qed.
End Properties.

(** ** The in-memory repository *)

Section MemoryProperties.
Context {Message State : Type}.
Implicit Types (r : MemoryRepository Message State).
Implicit Types (sm : SessionMessage Message) (l : list (SessionMessage Message)).

Lemma lookup_put_message_ne sm l j :
  j <> message_id sm -> lookup_message j (put_message sm l) = lookup_message j l.
Proof.
  intros Hj. unfold lookup_message.
  assert (Hsm : bool_decide (message_id sm = j) = false)
    by (apply bool_decide_eq_false_2; congruence).
  induction l as [|x l IH]; simpl.
  - rewrite Hsm. reflexivity.
  - destruct (decide (message_id sm < message_id x)) as [Hlt|Hge]; simpl.
    + rewrite Hsm. reflexivity.
    + destruct (decide (message_id sm = message_id x)) as [Heq|Hne]; simpl.
      * rewrite Hsm, <- Heq, Hsm. reflexivity.
      * rewrite IH. reflexivity.
Qed.

Lemma lookup_put_message_eq sm l :
  lookup_message (message_id sm) (put_message sm l) = Some sm.
Proof.
  unfold lookup_message.
  assert (Hsm : bool_decide (message_id sm = message_id sm) = true)
    by (apply bool_decide_eq_true_2; reflexivity).
  induction l as [|x l IH]; simpl.
  - rewrite Hsm. reflexivity.
  - destruct (decide (message_id sm < message_id x)) as [Hlt|Hge]; simpl.
    + rewrite Hsm. reflexivity.
    + destruct (decide (message_id sm = message_id x)) as [Heq|Hne]; simpl.
      * rewrite Hsm. reflexivity.
      * rewrite (bool_decide_eq_false_2 (message_id x = message_id sm)) by congruence.
        exact IH.
Qed.

Lemma elem_of_put_message sm l y : y ∈ put_message sm l -> y = sm \/ y ∈ l.
Proof.
  induction l as [|x l IH]; simpl.
  - intros Hy. apply list_elem_of_singleton in Hy. auto.
  - repeat case_decide; intros Hy.
    + apply elem_of_cons in Hy as [->|Hy]; auto.
    + apply elem_of_cons in Hy as [->|Hy]; auto. right. apply elem_of_cons. auto.
    + apply elem_of_cons in Hy as [->|Hy]; [right; apply elem_of_cons; auto|].
      destruct (IH Hy) as [->|Hl]; auto. right. apply elem_of_cons. auto.
Qed.

(** [put_message] keeps an agent's messages in ascending [message_id]
    order, which is the order [list_messages] returns them in. *)
Lemma put_message_sorted sm l :
  StronglySorted (fun x y => message_id x < message_id y) l ->
  StronglySorted (fun x y => message_id x < message_id y) (put_message sm l).
Proof.
  induction 1 as [|x l Hs IH Hx]; simpl.
  - repeat constructor.
  - rewrite Forall_forall in Hx. repeat case_decide.
    + constructor; [constructor; [assumption|apply Forall_forall; assumption]|].
      constructor; [assumption|].
      apply Forall_forall. intros y Hy. specialize (Hx y Hy). lia.
    + constructor; [assumption|].
      apply Forall_forall. intros y Hy. specialize (Hx y Hy). lia.
    + constructor; [assumption|].
      apply Forall_forall. intros y Hy.
      destruct (elem_of_put_message _ _ _ Hy) as [->|Hl]; [lia|auto].
Qed.

Lemma memory_update_agent_messages sid sa r :
  stored_messages (fst (update_agent sid sa r)) = stored_messages r.
Proof.
  simpl. unfold guarded. destruct (available r); [|reflexivity].
  unfold bind, gets. destruct (agents r !! _); reflexivity.
Qed.

Lemma memory_update_message_frame sid aid sm r j :
  j <> message_id sm ->
  lookup_message j (messages_of sid aid (fst (update_message sid aid sm r)))
    = lookup_message j (messages_of sid aid r).
Proof.
  intros Hj. simpl. unfold guarded. destruct (available r); [|reflexivity].
  unfold bind, gets. destruct (has_message _ _); [|reflexivity].
  simpl. unfold messages_of at 1. simpl. rewrite lookup_insert_eq. simpl.
  apply lookup_put_message_ne, Hj.
Qed.

Lemma memory_update_message_other sid aid sm r sid' aid' :
  (sid', aid') <> (sid, aid) ->
  messages_of sid' aid' (fst (update_message sid aid sm r)) = messages_of sid' aid' r.
Proof.
  intros Hne. simpl. unfold guarded. destruct (available r); [|reflexivity].
  unfold bind, gets. destruct (has_message _ _); [|reflexivity].
  simpl. unfold messages_of. simpl. rewrite lookup_insert_ne by congruence. reflexivity.
Qed.

Lemma memory_update_message_at sid aid sm r :
  snd (update_message sid aid sm r) = Return tt ->
  lookup_message (message_id sm) (messages_of sid aid (fst (update_message sid aid sm r)))
    = Some sm.
Proof.
  simpl. unfold guarded. destruct (available r); [|discriminate].
  unfold bind, gets. destruct (has_message _ _); [|discriminate].
  intros _. simpl. unfold messages_of at 1. simpl. rewrite lookup_insert_eq. simpl.
  apply lookup_put_message_eq.
Qed.
End MemoryProperties.

(** * The lifecycle contract *)

Import Scenario.


(** C1, at an agent that starts with one message, on an empty repository:
    [initialize] returns and persists the message with [message_id] 0, yet
    the latest-message cache entry of the agent is [None], not that
    message; the next [append_message] then issues [create_message] with
    [message_id] 0 a second time. *)
Theorem initialize_create_path_latest_is_none :
  initialize a1_talking fresh = (after (Initialize a1_talking) fresh, Return a1_talking)
  /\ messages_of "s1" "a1"
       (repository (session_repository (after (Initialize a1_talking) fresh)))
     = [from_message "hello" 0]
  /\ latest (after (Initialize a1_talking) fresh) "a1" = Some None
  /\ latest (after (Initialize a1_talking) fresh) "a1" <> Some (Some (from_message "hello" 0))
  /\ issued (append_message "again" a1_talking) (after (Initialize a1_talking) fresh)
     = [CreateMessage "s1" "a1" (from_message "again" 0)].
Proof. vm_compute. repeat split; try reflexivity. discriminate. Qed.

(** The restore path at a repository holding two messages: the agent
    receives both, and the cache entry is again [None]. *)
Example initialize_restore_path_latest_is_none :
  snd (initialize a1 restored)
    = Return {| agent_id := "a1"; messages := ["id0"; "id1"]; state := {["x" := 1]} |}
  /\ latest (after (Initialize a1) restored) "a1" = Some None.
Proof. vm_compute. split; reflexivity. Qed.

(** C2 as stated fails: with the repository unreachable, [create_message]
    raises inside [append_message], the exception propagates, and the cache
    entry differs from its value before the call. *)
Lemma append_message_failure_changes_latest :
  latest (unplug (after (Initialize a1) fresh)) "a1" = Some None
  /\ snd (create_message "s1" "a1" (from_message "m0" 0)
            (repository (session_repository (unplug (after (Initialize a1) fresh)))))
     = Raise (OtherError "I/O failure")
  /\ snd (append_message "m0" a1 (unplug (after (Initialize a1) fresh)))
     = Raise (OtherError "I/O failure")
  /\ latest (fst (append_message "m0" a1 (unplug (after (Initialize a1) fresh)))) "a1"
     <> latest (unplug (after (Initialize a1) fresh)) "a1".
Proof. vm_compute. repeat split; try reflexivity. discriminate. Qed.

(** C2, amended: for an initialized agent, when [append_message] raises, the
    exception is the one [create_message] raised, and the cache entry of the
    agent is the SessionMessage built for this call, with the next index;
    the update made before the repository call is kept. *)
Theorem append_message_failure_keeps_new_latest
    {Message State R : Type} `{!SessionRepository Message State R}
    (w : world Message State R) (m : Message) (a : Agent Message State)
    (o : option (SessionMessage Message)) (e : exn) :
  latest w (agent_id a) = Some o ->
  snd (append_message m a w) = Raise e ->
  snd (create_message (session_id (self w)) (agent_id a) (from_message m (next_index o))
         (repository (session_repository w))) = Raise e
  /\ latest (fst (append_message m a w)) (agent_id a)
     = Some (Some (from_message m (next_index o))).
Proof.
  intros Ho. rewrite (append_message_known _ _ _ _ Ho). simpl. intros He.
  split; [exact He|]. unfold latest. simpl. apply lookup_insert_eq.
Qed.

Lemma append_message_failure_keeps_new_latest_witness :
  latest (fst (append_message "m0" a1 (unplug (after (Initialize a1) fresh)))) "a1"
  = Some (Some (from_message "m0" 0)).
Proof.
  apply (append_message_failure_keeps_new_latest
           (unplug (after (Initialize a1) fresh)) "m0" a1 None (OtherError "I/O failure")).
  - vm_compute. reflexivity.
  - vm_compute. reflexivity.
Defined.

(** C4: once [initialize] has been called for an agent id, whatever calls
    followed, a further [initialize] for the same id raises the
    duplicate-initialization error and leaves the manager and the
    repository, with the record of calls made on it, exactly as they were:
    it issues no repository call. *)
Theorem initialize_twice_fails
    {Message State R : Type} `{!SessionRepository Message State R}
    (w : world Message State R) (a a' : Agent Message State) (os : list (op Message State)) :
  agent_id a' = agent_id a ->
  initialize a' (after_all (Initialize a :: os) w)
    = (after_all (Initialize a :: os) w,
       Raise (SessionException "The `agent_id` of an agent must be unique in a session."))
  /\ issued (initialize a') (after_all (Initialize a :: os) w) = [].
Proof.
  intros Hid.
  assert (Hk : is_Some (latest (after_all (Initialize a :: os) w) (agent_id a'))).
  { rewrite Hid. simpl. apply latest_after_all_Some, latest_after_initialize. }
  destruct Hk as [o Ho]. split.
  - apply (initialize_known _ _ _ Ho).
  - apply issued_app. rewrite (initialize_known _ _ _ Ho). simpl.
    rewrite app_nil_r. reflexivity.
Qed.

Lemma initialize_twice_fails_witness :
  initialize a1_talking (after_all [Initialize a1; AppendMessage "m0" a1] fresh)
    = (after_all [Initialize a1; AppendMessage "m0" a1] fresh,
       Raise (SessionException "The `agent_id` of an agent must be unique in a session."))
  /\ issued (initialize a1_talking) (after_all [Initialize a1; AppendMessage "m0" a1] fresh)
     = [].
Proof.
  apply (initialize_twice_fails fresh a1 a1_talking [AppendMessage "m0" a1]).
  reflexivity.
Defined.

(** C5: for an initialized agent whose cache entry is [None],
    [redact_latest_message] raises the no-message-to-redact error and leaves
    the manager and the repository untouched: no repository call is made. *)
Theorem redact_latest_message_without_message
    {Message State R : Type} `{!SessionRepository Message State R}
    (w : world Message State R) (r : Message) (a : Agent Message State) :
  latest w (agent_id a) = Some None ->
  redact_latest_message r a w = (w, Raise (SessionException "No message to redact."))
  /\ issued (redact_latest_message r a) w = [].
Proof.
  unfold latest. intros E.
  assert (Hr : redact_latest_message r a w
               = (w, Raise (SessionException "No message to redact."))).
  { unfold redact_latest_message, bind, gets, raise. rewrite E. reflexivity. }
  split; [exact Hr|]. apply issued_app. rewrite Hr. simpl. rewrite app_nil_r. reflexivity.
Qed.

Lemma redact_latest_message_without_message_witness :
  redact_latest_message "r" a1 (after (Initialize a1) fresh)
    = (after (Initialize a1) fresh, Raise (SessionException "No message to redact."))
  /\ issued (redact_latest_message "r" a1) (after (Initialize a1) fresh) = [].
Proof.
  apply (redact_latest_message_without_message (after (Initialize a1) fresh) "r" a1).
  vm_compute. reflexivity.
Defined.

(** C3: after an [initialize] that returned with the agent holding no
    message, a run of [append_message] calls with contents [ms] issues
    exactly the calls [create_message] with ids [0, 1, ..., N-1], in call
    order and each with its own content, and after the call number [k+1]
    the cache entry is that call's message, with [message_id] [k]. *)
Theorem append_message_ids_contiguous
    {Message State R : Type} `{!SessionRepository Message State R}
    (w0 w : world Message State R) (a a' : Agent Message State) (ms : list Message) :
  initialize a w0 = (w, Return a') ->
  messages a' = [] ->
  calls (session_repository (after_all (map (fun m => AppendMessage m a') ms) w))
    = calls (session_repository w)
      ++ imap (fun k m => CreateMessage (session_id (self w)) (agent_id a')
                            (from_message m (Z.of_nat k))) ms
  /\ forall (k : nat) (m : Message),
       ms !! k = Some m ->
       latest (after_all (map (fun m => AppendMessage m a') (take (S k) ms)) w) (agent_id a')
       = Some (Some (from_message m (Z.of_nat k))).
Proof.
  intros Hi _.
  pose proof (initialize_agent_id _ _ _ _ Hi) as Hid.
  destruct (initialize_returned _ _ _ _ Hi) as [_ Hl]. rewrite <- Hid in Hl.
  split.
  - destruct (after_all_appends a' ms w None Hl) as [Hc _]. exact Hc.
  - intros k m Hk.
    destruct (after_all_appends a' (take (S k) ms) w None Hl) as [_ Hlast].
    rewrite Hlast. clear Hlast.
    pose proof (lookup_lt_Some _ _ _ Hk) as Hlt.
    assert (Hlen : length (take (S k) ms) = S k) by (rewrite length_take; lia).
    rewrite last_lookup, Hlen. simpl Init.Nat.pred.
    rewrite lookup_take_lt by lia. rewrite Hk.
    do 3 f_equal. simpl next_index. lia.
Qed.

Lemma append_message_ids_contiguous_witness :
  calls (session_repository
           (after_all (map (fun m => AppendMessage m a1) ["m0"; "m1"; "m2"])
              (after (Initialize a1) fresh)))
    = calls (session_repository (after (Initialize a1) fresh))
      ++ [CreateMessage "s1" "a1" (from_message "m0" 0);
          CreateMessage "s1" "a1" (from_message "m1" 1);
          CreateMessage "s1" "a1" (from_message "m2" 2)].
Proof.
  refine (proj1 (append_message_ids_contiguous fresh (after (Initialize a1) fresh) a1 a1
                   ["m0"; "m1"; "m2"] _ _)).
  - vm_compute. reflexivity.
  - reflexivity.
Defined.

(** C6: when the latest [append_message] of an agent built message_id [k]
    (it issued [create_message] at [k]), [redact_latest_message r] issues
    exactly one repository call, [update_message] with the record whose
    [message] and [message_id] are those of that append and whose
    [redact_message] is [r]; the repository changes by that call alone; and
    the next [append_message] issues [create_message] at [k + 1].  In the
    in-memory repository that [update_message] leaves the record at every
    other [message_id] as it was, and when it returns the record at [k] is
    the one passed. *)
Theorem redact_latest_message_targets_latest {Message State : Type} :
  (forall (R : Type) (HR : SessionRepository Message State R)
     (w0 : world Message State R) (m r m2 : Message) (a : Agent Message State)
     (o : option (SessionMessage Message)),
     latest w0 (agent_id a) = Some o ->
     let k := next_index o in
     let sid := session_id (self w0) in
     let redacted := {| message := m; message_id := k; redact_message := Some r |} in
     let w1 := after (AppendMessage m a) w0 in
     let w2 := after (RedactLatestMessage r a) w1 in
     issued (append_message m a) w0
       = [CreateMessage sid (agent_id a)
            {| message := m; message_id := k; redact_message := None |}]
     /\ issued (redact_latest_message r a) w1 = [UpdateMessage sid (agent_id a) redacted]
     /\ repository (session_repository w2)
        = fst (update_message sid (agent_id a) redacted (repository (session_repository w1)))
     /\ issued (append_message m2 a) w2
        = [CreateMessage sid (agent_id a) (from_message m2 (k + 1))])
  /\ (forall (sid aid : string) (sm : SessionMessage Message)
        (rep : MemoryRepository Message State),
        (forall j : Z, j <> message_id sm ->
           lookup_message j (messages_of sid aid (fst (update_message sid aid sm rep)))
           = lookup_message j (messages_of sid aid rep))
        /\ (snd (update_message sid aid sm rep) = Return tt ->
            lookup_message (message_id sm)
              (messages_of sid aid (fst (update_message sid aid sm rep))) = Some sm)).
Proof.
  split.
  - intros R HR w0 m r m2 a o Ho k sid redacted w1 w2.
    destruct (after_append_message w0 m a o Ho) as (Hl1 & Hsid1 & Hc1).
    fold w1 in Hl1, Hsid1, Hc1.
    pose proof (redact_latest_message_known w1 r a _ Hl1) as Hr. simpl in Hr.
    rewrite Hsid1 in Hr.
    assert (Hw2 : w2 = fst (redact_latest_message r a w1)) by reflexivity.
    assert (Hl2 : latest w2 (agent_id a) = Some (Some redacted)).
    { rewrite Hw2, Hr. unfold latest. simpl. apply lookup_insert_eq. }
    assert (Hsid2 : session_id (self w2) = sid).
    { rewrite Hw2, Hr. simpl. exact Hsid1. }
    repeat split.
    + apply issued_app. exact Hc1.
    + apply issued_app. rewrite Hr. reflexivity.
    + rewrite Hw2, Hr. reflexivity.
    + apply issued_app. rewrite (append_message_known _ _ _ _ Hl2). simpl.
      rewrite Hsid2. reflexivity.
  - intros sid aid sm rep. split.
    + intros j Hj. apply memory_update_message_frame, Hj.
    + apply memory_update_message_at.
Qed.

Lemma redact_latest_message_targets_latest_witness :
  issued (redact_latest_message "r" a1)
    (after (AppendMessage "m1" a1) (after_all [Initialize a1; AppendMessage "m0" a1] fresh))
  = [UpdateMessage "s1" "a1" {| message := "m1"; message_id := 1; redact_message := Some "r" |}].
Proof.
  refine (proj1 (proj2 (proj1 (@redact_latest_message_targets_latest string (gmap string Z))
                          _ _ (after_all [Initialize a1; AppendMessage "m0" a1] fresh)
                          "m1" "r" "m2" a1 (Some (from_message "m0" 0)) _))).
  vm_compute. reflexivity.
Defined.

(** C7: on the restore path, that is when [read_agent] returns a persisted
    SessionAgent and [list_messages] returns the list [l], [initialize]
    returns with [agent.messages] being the messages of [l] converted one by
    one, in the order of [l], and [agent.state] being the persisted state;
    nothing of the agent's earlier messages and state remains. *)
Theorem initialize_restores_agent
    {Message State R : Type} `{!SessionRepository Message State R}
    (w : world Message State R) (a : Agent Message State)
    (sa : SessionAgent State) (l : list (SessionMessage Message)) (r1 r2 : R) :
  latest w (agent_id a) = None ->
  read_agent (session_id (self w)) (agent_id a) (repository (session_repository w))
    = (r1, Return (Some sa)) ->
  list_messages (session_id (self w)) (agent_id a) r1 = (r2, Return l) ->
  snd (initialize a w)
    = Return {| agent_id := agent_id a;
                messages := map to_message l;
                state := AgentState (sa_state sa) |}.
Proof.
  intros E Hread Hlist. rewrite (initialize_restore _ _ _ _ _ _ E Hread Hlist). reflexivity.
Qed.

Lemma initialize_restores_agent_witness :
  snd (initialize {| agent_id := "a1"; messages := ["stale"]; state := {["y" := 7]} |} restored)
  = Return {| agent_id := "a1"; messages := ["id0"; "id1"]; state := {["x" := 1]} |}.
Proof.
  refine (initialize_restores_agent restored
            {| agent_id := "a1"; messages := ["stale"]; state := {["y" := 7]} |}
            {| sa_agent_id := "a1"; sa_state := {["x" := 1]} |}
            [from_message "id0" 0; from_message "id1" 1] persisted persisted _ _ _).
  - vm_compute. reflexivity.
  - vm_compute. reflexivity.
  - vm_compute. reflexivity.
Defined.

(** C8 as stated fails: on an empty repository the constructor alone, with
    no [initialize] call made, has issued [create_session] and the
    repository holds the Session record. *)
Lemma constructor_writes_session :
  new "s1" empty_repository = (session_repository fresh, Return fresh)
  /\ sessions (@empty_repository string (gmap string Z)) !! "s1" = None
  /\ calls (fst (new (Message := string) (State := gmap string Z) "s1" empty_repository))
     = [ReadSession "s1"; CreateSession session_s1]
  /\ sessions (repository (fst (new (Message := string) (State := gmap string Z)
                                  "s1" empty_repository))) !! "s1"
     = Some session_s1.
Proof. vm_compute. repeat split; reflexivity. Qed.

(** C8, amended: when [read_session] finds no session with the given id,
    the constructor of the manager issues [read_session] and then
    [create_session] with a new Session of type AGENT, before any
    [initialize] call can be made; [initialize] itself reads and writes no
    Session record. *)
Theorem session_created_by_constructor
    {Message State R : Type} `{!SessionRepository Message State R}
    (sid : string) (r r1 : R) :
  read_session sid r = (r1, Return None) ->
  calls (fst (new sid r))
    = [ReadSession sid; CreateSession {| s_session_id := sid; s_session_type := AGENT |}]
  /\ forall (w : world Message State R) (a : Agent Message State),
       Forall (fun c => is_session_call c = false) (issued (initialize a) w).
Proof.
  intros Hread. split.
  - rewrite new_calls, Hread. reflexivity.
  - intros w a. destruct (initialize_calls w a) as (l & Hl & Hf).
    rewrite (issued_app _ _ _ Hl). exact Hf.
Qed.

Lemma session_created_by_constructor_witness :
  calls (fst (new (Message := string) (State := gmap string Z) "s1" empty_repository))
  = [ReadSession "s1"; CreateSession {| s_session_id := "s1"; s_session_type := AGENT |}].
Proof.
  refine (proj1 (session_created_by_constructor (Message := string) (State := gmap string Z)
                   "s1" empty_repository empty_repository _)).
  vm_compute. reflexivity.
Defined.

(** C9: [sync_agent] issues exactly one repository call, [update_agent]
    with a snapshot taken from the agent as it is at the call; the manager,
    and with it the latest-message cache, is unchanged, and the repository
    changes by that call alone.  In the in-memory repository [update_agent]
    leaves every stored message as it was. *)
Theorem sync_agent_only_updates_agent {Message State : Type} :
  (forall (R : Type) (HR : SessionRepository Message State R)
     (w : world Message State R) (a : Agent Message State),
     issued (sync_agent a) w
       = [UpdateAgent (session_id (self w))
            {| sa_agent_id := agent_id a; sa_state := state a |}]
     /\ self (fst (sync_agent a w)) = self w
     /\ repository (session_repository (fst (sync_agent a w)))
        = fst (update_agent (session_id (self w))
                 {| sa_agent_id := agent_id a; sa_state := state a |}
                 (repository (session_repository w))))
  /\ (forall (sid : string) (sa : SessionAgent State) (rep : MemoryRepository Message State),
        stored_messages (fst (update_agent sid sa rep)) = stored_messages rep).
Proof.
  split.
  - intros R HR w a. rewrite sync_agent_eq. simpl. repeat split.
    apply issued_app. rewrite sync_agent_eq. reflexivity.
  - intros sid sa rep. apply memory_update_agent_messages.
Qed.

(** C10: on a manager as its constructor returned it, after any history of
    calls: if none of them is an [initialize] for the agent's id, then
    [append_message] and [redact_latest_message] for that agent raise
    [KeyError], which is not a [SessionException], and leave the manager and
    the repository with its record of calls exactly as they were; and if one
    of them is an [initialize] for that id, the cache has an entry for it,
    so the lookup in both methods succeeds. *)
Theorem uninitialized_agent_key_error
    {Message State R : Type} `{!SessionRepository Message State R}
    (sid : string) (rep : R) (b : backend Message State R) (w : world Message State R)
    (os : list (op Message State)) (a : Agent Message State) (m r : Message) :
  new sid rep = (b, Return w) ->
  (Forall (fun p => initializes p <> Some (agent_id a)) os ->
     append_message m a (after_all os w) = (after_all os w, Raise (KeyError (agent_id a)))
     /\ redact_latest_message r a (after_all os w)
        = (after_all os w, Raise (KeyError (agent_id a)))
     /\ forall msg : string, KeyError (agent_id a) <> SessionException msg)
  /\ (Exists (fun p => initializes p = Some (agent_id a)) os ->
      is_Some (_latest_agent_message (self (after_all os w)) !! agent_id a)).
Proof.
  intros Hnew. split.
  - intros Hos.
    assert (Hl : latest (after_all os w) (agent_id a) = None).
    { apply latest_after_all_None; [|exact Hos]. apply (new_latest _ _ _ _ _ Hnew). }
    repeat split.
    + apply append_message_unknown, Hl.
    + apply redact_latest_message_unknown, Hl.
    + discriminate.
  - intros Hos. apply (latest_after_all_initialized os w _ Hos).
Qed.

Lemma uninitialized_agent_key_error_witness :
  (append_message "m0" a1 (after_all [SyncAgent a1] fresh)
     = (after_all [SyncAgent a1] fresh, Raise (KeyError "a1"))
   /\ redact_latest_message "r" a1 (after_all [SyncAgent a1] fresh)
      = (after_all [SyncAgent a1] fresh, Raise (KeyError "a1"))
   /\ forall msg : string, KeyError "a1" <> SessionException msg)
  /\ is_Some (_latest_agent_message
                (self (after_all [SyncAgent a1; Initialize a1; AppendMessage "m0" a1] fresh))
              !! "a1").
Proof.
  split.
  - refine (proj1 (uninitialized_agent_key_error "s1" empty_repository
                     (session_repository fresh) fresh [SyncAgent a1] a1 "m0" "r" _) _).
    + vm_compute. reflexivity.
    + repeat constructor; discriminate.
  - refine (proj2 (uninitialized_agent_key_error "s1" empty_repository
                     (session_repository fresh) fresh
                     [SyncAgent a1; Initialize a1; AppendMessage "m0" a1] a1 "m0" "r" _) _).
    + vm_compute. reflexivity.
    + apply Exists_cons_tl, Exists_cons_hd. reflexivity.
Defined.

(** * Further properties of the session manager *)

Section Lifecycle.
Context {Message State R : Type} `{!SessionRepository Message State R}.
Implicit Types (w : world Message State R) (a : Agent Message State).
Implicit Types (o : option (SessionMessage Message)) (p : op Message State).
Implicit Types (os : list (op Message State)) (c : call Message State).

(** [initialize] for an id the cache does not know, branch by branch. *)
Lemma initialize_unknown w a :
  latest w (agent_id a) = None ->
  initialize a w =
    let sid := session_id (self w) in
    let mgr := with_latest (agent_id a) None (self w) in
    let read := read_agent sid (agent_id a) (repository (session_repository w)) in
    let seen := calls (session_repository w) ++ [ReadAgent sid (agent_id a)] in
    match snd read with
    | Raise e =>
        ({| self := mgr;
            session_repository := {| repository := fst read; calls := seen |} |}, Raise e)
    | Return (Some sa) =>
        let listed := list_messages sid (agent_id a) (fst read) in
        ({| self := mgr;
            session_repository :=
              {| repository := fst listed;
                 calls := seen ++ [ListMessages sid (agent_id a)] |} |},
         match snd listed with
         | Return l => Return {| agent_id := agent_id a;
                                 messages := map to_message l;
                                 state := AgentState (sa_state sa) |}
         | Raise e => Raise e
         end)
    | Return None =>
        let made := create_agent sid (from_agent a) (fst read) in
        let w1 := {| self := mgr;
                     session_repository :=
                       {| repository := fst made;
                          calls := seen ++ [CreateAgent sid (from_agent a)] |} |} in
        match snd made with
        | Raise e => (w1, Raise e)
        | Return _ =>
            (fst (create_messages sid (agent_id a) 0 (messages a) w1),
             match snd (create_messages sid (agent_id a) 0 (messages a) w1) with
             | Return _ => Return a
             | Raise e => Raise e
             end)
        end
    end.
Proof.
  unfold latest. intros E.
  unfold initialize, bind at 1, gets. rewrite E.
  unfold bind at 1, set_latest, modify.
  unfold bind at 1, gets. unfold bind at 1, on_repository at 1, invoke at 1. simpl.
  destruct (read_agent _ _ _) as [r1 [[sa|]|e]]; simpl; [| |reflexivity].
  - unfold bind, on_repository, invoke, ret. simpl.
    destruct (list_messages _ _ _) as [r2 [l|e]]; simpl; rewrite <- app_assoc; reflexivity.
  - unfold bind at 1, on_repository at 1, invoke at 1. simpl.
    destruct (create_agent _ _ _) as [r2 [u|e]]; simpl.
    + unfold bind, ret.
      destruct (create_messages _ _ _ _ _) as [w' [u'|e]]; reflexivity.
    + reflexivity.
Qed.

Lemma create_messages_cons sid aid (m : Message) (ms : list Message) (i : Z) w :
  create_messages sid aid i (m :: ms) w =
    let made := create_message sid aid (from_message m i) (repository (session_repository w)) in
    let w1 := {| self := self w;
                 session_repository :=
                   {| repository := fst made;
                      calls := calls (session_repository w)
                               ++ [CreateMessage sid aid (from_message m i)] |} |} in
    match snd made with
    | Return _ => create_messages sid aid (i + 1) ms w1
    | Raise e => (w1, Raise e)
    end.
Proof.
  simpl. unfold bind at 1, on_repository, invoke.
  destruct (create_message _ _ _ _) as [r' [u|e]]; reflexivity.
Qed.

(** The loop issues [create_message] for a prefix of the messages, each at
    its position, and stops at the first one that raises. *)
Lemma create_messages_issued sid aid (ms : list Message) : forall (i : Z) w,
  exists n : nat,
    (n <= length ms)%nat
    /\ calls (session_repository (fst (create_messages sid aid i ms w)))
       = calls (session_repository w)
         ++ take n (imap (fun k m => CreateMessage sid aid (from_message m (i + Z.of_nat k))) ms)
    /\ (snd (create_messages sid aid i ms w) = Return tt -> n = length ms)
    /\ (forall e, snd (create_messages sid aid i ms w) = Raise e -> (0 < n)%nat).
Proof.
  induction ms as [|m ms IH]; intros i w.
  - exists O. simpl. rewrite app_nil_r. repeat split; auto. discriminate.
  - rewrite create_messages_cons. simpl.
    destruct (create_message _ _ _ _) as [r' [u|e]]; simpl.
    + destruct (IH (i + 1) {| self := self w;
                   session_repository :=
                     {| repository := r';
                        calls := calls (session_repository w)
                                 ++ [CreateMessage sid aid (from_message m i)] |} |})
        as (n & Hn & Hc & Hret & Hraise).
      exists (S n). rewrite Hc. simpl. rewrite Z.add_0_r. repeat split.
      * lia.
      * rewrite <- app_assoc. simpl. do 3 f_equal.
        apply imap_ext. intros k x _. simpl. do 2 f_equal. lia.
      * intros Hr. rewrite (Hret Hr). reflexivity.
      * intros. lia.
    + exists 1%nat. simpl. rewrite Z.add_0_r, take_0. repeat split.
      * lia.
      * discriminate.
      * intros. lia.
Qed.

(** X1. On the create path, an [initialize] that returns has issued
    [read_agent], [create_agent] with a snapshot of the agent, and one
    [create_message] per message the agent holds, in order and numbered by
    position from 0; the agent object is returned as it was. *)
Theorem initialize_create_path_persists_all w a w' a' (r1 : R) :
  read_agent (session_id (self w)) (agent_id a) (repository (session_repository w))
    = (r1, Return None) ->
  initialize a w = (w', Return a') ->
  a' = a
  /\ issued (initialize a) w
     = [ReadAgent (session_id (self w)) (agent_id a);
        CreateAgent (session_id (self w)) (from_agent a)]
       ++ imap (fun k m => CreateMessage (session_id (self w)) (agent_id a)
                             (from_message m (Z.of_nat k))) (messages a).
Proof.
  intros Hread Hi.
  destruct (initialize_returned _ _ _ _ Hi) as [E _].
  pose proof (initialize_unknown w a E) as Heq. simpl in Heq.
  rewrite Hread in Heq. simpl in Heq.
  destruct (create_agent _ _ r1) as [r2 [u|e]]; simpl in Heq;
    [|rewrite Heq in Hi; discriminate].
  match type of Heq with
  | context [create_messages ?s ?k 0 ?ms ?w1] =>
      destruct (create_messages_issued s k ms 0 w1) as (n & _ & Hc & Hret & _);
      destruct (create_messages s k 0 ms w1) as [w2 [u'|e]] eqn:Hloop
  end; simpl in *; [|rewrite Heq in Hi; discriminate].
  destruct u'. specialize (Hret eq_refl). subst n.
  rewrite Heq in Hi. injection Hi as <- <-. split; [reflexivity|].
  apply issued_app. rewrite Heq. simpl. rewrite Hc.
  rewrite firstn_all2 by (rewrite length_imap; lia).
  rewrite <- !app_assoc. simpl. do 3 f_equal.
Qed.


(** X3. On the restore path [initialize] only reads: it issues
    [read_agent] and [list_messages] and nothing else, the repository is
    left as [list_messages] left it, and if [list_messages] raises so does
    [initialize]. *)
Theorem initialize_restore_path_only_reads w a (sa : SessionAgent State) (r1 : R) :
  latest w (agent_id a) = None ->
  read_agent (session_id (self w)) (agent_id a) (repository (session_repository w))
    = (r1, Return (Some sa)) ->
  issued (initialize a) w
    = [ReadAgent (session_id (self w)) (agent_id a);
       ListMessages (session_id (self w)) (agent_id a)]
  /\ repository (session_repository (fst (initialize a w)))
     = fst (list_messages (session_id (self w)) (agent_id a) r1)
  /\ forall e, snd (list_messages (session_id (self w)) (agent_id a) r1) = Raise e ->
               snd (initialize a w) = Raise e.
Proof.
  intros E Hread.
  pose proof (initialize_unknown w a E) as Heq. simpl in Heq.
  rewrite Hread in Heq. simpl in Heq. rewrite Heq. simpl. repeat split.
  - apply issued_app. rewrite Heq. simpl. rewrite <- app_assoc. reflexivity.
  - intros e ->. reflexivity.
Qed.
(** *** One call at a time *)

Lemma self_after_op p w :
  self (after p w) = self w
  \/ exists v, self (after p w) = with_latest (agent_id (op_agent p)) v (self w).
Proof.
  destruct p as [a|m a|r a|a]; simpl op_agent.
  - rewrite after_initialize, initialize_self.
    destruct (latest w (agent_id a)); eauto.
  - unfold after. simpl. rewrite append_message_self.
    destruct (latest w (agent_id a)); eauto.
  - unfold after. simpl. rewrite redact_latest_message_self.
    destruct (latest w (agent_id a)) as [[sm|]|]; eauto.
  - left. apply sync_agent_self.
Qed.

Lemma session_after_op p w :
  session_id (self (after p w)) = session_id (self w)
  /\ session (self (after p w)) = session (self w).
Proof. destruct (self_after_op p w) as [->|[v ->]]; auto. Qed.

Lemma latest_after_other p w k :
  agent_id (op_agent p) <> k -> latest (after p w) k = latest w k.
Proof.
  intros Hk. unfold latest. destruct (self_after_op p w) as [->|[v ->]]; [reflexivity|].
  simpl. apply lookup_insert_ne, Hk.
Qed.

(** Every repository call a lifecycle call issues is addressed to the
    manager's session and to the agent the call was made for. *)
Lemma perform_calls p w :
  exists l,
    calls (session_repository (after p w)) = calls (session_repository w) ++ l
    /\ Forall (fun c => is_session_call c = false
                        /\ call_session_id c = session_id (self w)
                        /\ call_agent_id c = Some (agent_id (op_agent p))) l.
Proof.
  destruct p as [a|m a|r a|a]; simpl op_agent.
  - rewrite after_initialize.
    destruct (latest w (agent_id a)) as [o|] eqn:E.
    { rewrite (initialize_known _ _ _ E). exists []. simpl. rewrite app_nil_r. auto. }
    rewrite (initialize_unknown w a E). simpl.
    destruct (read_agent _ _ _) as [r1 [[sa|]|e]]; simpl.
    + eexists. split; [rewrite <- app_assoc; reflexivity|]. repeat constructor.
    + destruct (create_agent _ _ r1) as [r2 [u|e]]; simpl.
      * match goal with
        | |- context [create_messages ?s ?k 0 ?ms ?w1] =>
            destruct (create_messages_issued s k ms 0 w1) as (n & _ & Hc & _ & _)
        end.
        simpl in Hc. rewrite Hc. eexists.
        split; [rewrite <- !app_assoc; reflexivity|].
        simpl. do 2 (constructor; [auto|]).
        apply Forall_take, Forall_lookup. intros i c Hi.
        rewrite list_lookup_imap in Hi.
        destruct (messages a !! i); simplify_eq/=. auto.
      * eexists. split; [rewrite <- app_assoc; reflexivity|]. repeat constructor.
    + eexists. split; [reflexivity|]. repeat constructor.
  - unfold after. simpl.
    destruct (latest w (agent_id a)) as [o|] eqn:E.
    + rewrite (append_message_known _ _ _ _ E). simpl.
      eexists. split; [reflexivity|]. repeat constructor.
    + rewrite (append_message_unknown _ _ _ E). exists []. simpl.
      rewrite app_nil_r. auto.
  - unfold after. simpl.
    destruct (latest w (agent_id a)) as [[sm|]|] eqn:E.
    + rewrite (redact_latest_message_known _ _ _ _ E). simpl.
      eexists. split; [reflexivity|]. repeat constructor.
    + unfold latest in E. unfold redact_latest_message, bind, gets, raise. rewrite E.
      exists []. simpl. rewrite app_nil_r. auto.
    + rewrite (redact_latest_message_unknown _ _ _ E). exists []. simpl.
      rewrite app_nil_r. auto.
  - unfold after. simpl. rewrite sync_agent_eq. simpl.
    eexists. split; [reflexivity|]. repeat constructor.
Qed.
(** *** Histories *)

Lemma history_calls_app os w l :
  calls (session_repository (after_all os w)) = calls (session_repository w) ++ l ->
  history_calls os w = l.
Proof. unfold history_calls. intros ->. apply drop_app_length. Qed.

Lemma session_after_all os : forall w,
  session_id (self (after_all os w)) = session_id (self w)
  /\ session (self (after_all os w)) = session (self w).
Proof.
  induction os as [|p os IH]; intros w; [auto|].
  simpl. destruct (IH (after p w)) as [-> ->]. apply session_after_op.
Qed.

Lemma after_all_calls os : forall w,
  exists l,
    calls (session_repository (after_all os w)) = calls (session_repository w) ++ l
    /\ Forall (fun c => is_session_call c = false
                        /\ call_session_id c = session_id (self w)
                        /\ exists p, p ∈ os /\ call_agent_id c = Some (agent_id (op_agent p))) l.
Proof.
  induction os as [|p os IH]; intros w.
  - exists []. simpl. rewrite app_nil_r. auto.
  - simpl. destruct (IH (after p w)) as (l2 & Hl2 & Hf2).
    destruct (perform_calls p w) as (l1 & Hl1 & Hf1).
    exists (l1 ++ l2). split; [rewrite Hl2, Hl1, app_assoc; reflexivity|].
    apply Forall_app. split.
    + eapply Forall_impl; [exact Hf1|]. intros c (? & ? & ?).
      repeat split; auto. exists p. split; [apply elem_of_cons; auto|assumption].
    + eapply Forall_impl; [exact Hf2|]. intros c (? & Hsid & q & Hq & ?).
      rewrite (proj1 (session_after_op p w)) in Hsid.
      repeat split; auto. exists q. split; [apply elem_of_cons; auto|assumption].
Qed.

(** X4. Agents are independent: a history of calls none of which is made
    for agent id [k] leaves the cache entry of [k] as it was and issues no
    repository call addressed to [k]. *)
Theorem other_agents_leave_agent_alone os w (k : string) :
  Forall (fun p => agent_id (op_agent p) <> k) os ->
  latest (after_all os w) k = latest w k
  /\ Forall (fun c => call_agent_id c <> Some k) (history_calls os w).
Proof.
  intros Hos. split.
  - revert w. induction Hos as [|p os Hp Hos IH]; intros w; [reflexivity|].
    simpl. rewrite IH. apply latest_after_other, Hp.
  - destruct (after_all_calls os w) as (l & Hl & Hf).
    rewrite (history_calls_app _ _ _ Hl).
    eapply Forall_impl; [exact Hf|]. intros c (_ & _ & p & Hp & Hc).
    rewrite Hc. intros [= Heq]. rewrite Forall_forall in Hos. exact (Hos p Hp Heq).
Qed.

(** X8. No lifecycle call changes the manager's [session_id] or [session],
    and every repository call a history issues is an agent or message
    operation addressed to the manager's own session: after construction
    the manager never reads or writes a Session record and never reaches
    into another session. *)
Theorem history_stays_in_session os w :
  session_id (self (after_all os w)) = session_id (self w)
  /\ session (self (after_all os w)) = session (self w)
  /\ Forall (fun c => is_session_call c = false
                      /\ call_session_id c = session_id (self w)) (history_calls os w).
Proof.
  destruct (session_after_all os w) as [Hsid Hs]. repeat split; [exact Hsid|exact Hs|].
  destruct (after_all_calls os w) as (l & Hl & Hf).
  rewrite (history_calls_app _ _ _ Hl).
  eapply Forall_impl; [exact Hf|]. intros c (? & ? & _). auto.
Qed.

(** *** Numbering under interleaving *)

Lemma created_for_other aid (l : list (call Message State)) (k : string) :
  k <> aid ->
  Forall (fun c => call_agent_id c = Some k) l ->
  created_for aid l = [].
Proof.
  intros Hk. induction 1 as [|c l Hc _ IH]; [reflexivity|].
  unfold created_for in *. destruct c; simpl in *; try exact IH.
  injection Hc as ->. rewrite decide_False by exact Hk. exact IH.
Qed.

Lemma created_for_step p w aid o :
  latest w aid = Some o ->
  exists l o',
    calls (session_repository (after p w)) = calls (session_repository w) ++ l
    /\ created_for aid l
       = imap (fun k m => from_message m (next_index o + Z.of_nat k)) (appended_to aid [p])
    /\ latest (after p w) aid = Some o'
    /\ next_index o' = next_index o + Z.of_nat (length (appended_to aid [p])).
Proof.
  intros Ho. destruct (decide (agent_id (op_agent p) = aid)) as [Heq|Hne].
  - destruct p as [a|m a|r a|a]; simpl in Heq; subst aid.
    + rewrite after_initialize, (initialize_known _ _ _ Ho).
      exists [], o. simpl. rewrite app_nil_r, Z.add_0_r. auto.
    + destruct (after_append_message w m a o Ho) as (Hl & _ & Hc).
      eexists _, _. split; [exact Hc|].
      unfold created_for, appended_to. simpl. rewrite !decide_True by reflexivity.
      simpl. rewrite Z.add_0_r. split; [reflexivity|]. split; [exact Hl|]. reflexivity.
    + unfold after. simpl. destruct o as [sm|].
      * rewrite (redact_latest_message_known _ _ _ _ Ho). simpl.
        eexists _, _. split; [reflexivity|]. split; [reflexivity|].
        unfold latest. simpl. rewrite lookup_insert_eq. split; [reflexivity|].
        simpl. lia.
      * unfold latest in Ho. unfold redact_latest_message, bind, gets, raise. rewrite Ho.
        exists [], None. simpl. rewrite app_nil_r. auto.
    + unfold after. simpl. rewrite sync_agent_eq. simpl.
      eexists _, o. split; [reflexivity|]. split; [reflexivity|].
      split; [exact Ho|]. simpl. lia.
  - destruct (perform_calls p w) as (l & Hl & Hf).
    exists l, o. split; [exact Hl|].
    assert (Hnone : appended_to aid [p] = []).
    { unfold appended_to. destruct p; try reflexivity. simpl in *.
      rewrite decide_False by exact Hne. reflexivity. }
    rewrite Hnone. simpl. split.
    + apply (created_for_other aid l (agent_id (op_agent p)) Hne).
      eapply Forall_impl; [exact Hf|]. intros c (_ & _ & Hc). exact Hc.
    + rewrite (latest_after_other _ _ _ Hne). split; [exact Ho|lia].
Qed.

(** X5. Numbering survives interleaving: from a state in which agent [aid]
    is initialized, after any history of lifecycle calls (appends,
    redactions and syncs for this and for other agents, further
    [initialize] calls), the records passed to [create_message] for [aid]
    are exactly the contents appended for [aid], in call order, with
    consecutive ids continuing from the cached message; and the index the
    next append will use has advanced by the number of those appends. *)
Theorem message_ids_contiguous_in_any_history os : forall w (aid : string) o,
  latest w aid = Some o ->
  created_for aid (history_calls os w)
    = imap (fun k m => from_message m (next_index o + Z.of_nat k)) (appended_to aid os)
  /\ exists o', latest (after_all os w) aid = Some o'
                /\ next_index o' = next_index o + Z.of_nat (length (appended_to aid os)).
Proof.
  induction os as [|p os IH]; intros w aid o Ho.
  - split; [|exists o; simpl; split; [exact Ho|lia]].
    unfold history_calls. simpl. rewrite drop_all. reflexivity.
  - destruct (created_for_step p w aid o Ho) as (l1 & o1 & Hl1 & Hc1 & Ho1 & Hn1).
    destruct (IH (after p w) aid o1 Ho1) as [Hc2 (o' & Ho' & Hn')].
    destruct (after_all_calls os (after p w)) as (l2 & Hl2 & _).
    rewrite (history_calls_app _ _ _ Hl2) in Hc2.
    assert (Happ : appended_to aid (p :: os) = appended_to aid [p] ++ appended_to aid os).
    { unfold appended_to. simpl. destruct (match p with AppendMessage _ _ => _ | _ => _ end);
        reflexivity. }
    split.
    + rewrite (history_calls_app (p :: os) w (l1 ++ l2))
        by (simpl; rewrite Hl2, Hl1, app_assoc; reflexivity).
      unfold created_for in *. rewrite omap_app, Hc1, Hc2, Happ, imap_app.
      f_equal. apply imap_ext. intros k m _. unfold from_message. f_equal.
      rewrite Hn1. lia.
    + exists o'. simpl after_all. split; [exact Ho'|].
      rewrite Hn', Hn1, Happ, length_app. lia.
Qed.

(** *** Redaction *)

(** X6. Redacting again overwrites: a second [redact_latest_message]
    targets the same record, with the [message] and [message_id] of the
    latest append and the new replacement, and leaves the manager exactly
    as a single redaction with that replacement would. *)
Theorem redact_latest_message_overwrites w a (r1 r2 : Message) (sm : SessionMessage Message) :
  latest w (agent_id a) = Some (Some sm) ->
  issued (redact_latest_message r2 a) (after (RedactLatestMessage r1 a) w)
    = [UpdateMessage (session_id (self w)) (agent_id a)
         {| message := message sm; message_id := message_id sm; redact_message := Some r2 |}]
  /\ self (after (RedactLatestMessage r2 a) (after (RedactLatestMessage r1 a) w))
     = self (after (RedactLatestMessage r2 a) w).
Proof.
  intros Hsm.
  assert (H1 : latest (after (RedactLatestMessage r1 a) w) (agent_id a)
               = Some (Some (set_redact_message sm r1))).
  { unfold after. simpl. rewrite (redact_latest_message_known _ _ _ _ Hsm).
    unfold latest. simpl. apply lookup_insert_eq. }
  assert (Hself : self (after (RedactLatestMessage r1 a) w)
                  = with_latest (agent_id a) (Some (set_redact_message sm r1)) (self w)).
  { unfold after. simpl. rewrite (redact_latest_message_known _ _ _ _ Hsm). reflexivity. }
  split.
  - apply issued_app. rewrite (redact_latest_message_known _ _ _ _ H1). simpl.
    rewrite Hself. reflexivity.
  - unfold after at 1 3. simpl.
    rewrite (redact_latest_message_known _ _ _ _ H1),
            (redact_latest_message_known _ _ _ _ Hsm). simpl.
    rewrite Hself. unfold with_latest. simpl. rewrite insert_insert_eq. reflexivity.
Qed.

(** X7. The redaction is written to the cached record before the
    repository is called: when [update_message] raises, the exception
    propagates and the cache entry already carries the replacement, with
    [message] and [message_id] unchanged. *)
Theorem redact_latest_message_failure_keeps_redaction
    w a (r : Message) (sm : SessionMessage Message) (e : exn) :
  latest w (agent_id a) = Some (Some sm) ->
  snd (redact_latest_message r a w) = Raise e ->
  snd (update_message (session_id (self w)) (agent_id a) (set_redact_message sm r)
         (repository (session_repository w))) = Raise e
  /\ latest (fst (redact_latest_message r a w)) (agent_id a)
     = Some (Some {| message := message sm; message_id := message_id sm;
                     redact_message := Some r |}).
Proof.
  intros Hsm. rewrite (redact_latest_message_known _ _ _ _ Hsm). simpl. intros He.
  split; [exact He|]. unfold latest. simpl. apply lookup_insert_eq.
Qed.

(** *** The constructor *)

(** X9. A manager the constructor returns holds the session id it was
    given and an empty latest-message cache, and the world holds the
    backend as the constructor left it.  Its [session] is the one
    [read_session] found, or else a new AGENT session with the given id,
    whatever [create_session] returned. *)
Theorem new_manager_fields (sid : string) (rep : R) (b : backend Message State R) w :
  new sid rep = (b, Return w) ->
  session_id (self w) = sid
  /\ _latest_agent_message (self w) = ∅
  /\ session_repository w = b
  /\ (snd (read_session sid rep) = Return (Some (session (self w)))
      \/ snd (read_session sid rep) = Return None
         /\ session (self w) = {| s_session_id := sid; s_session_type := AGENT |}).
Proof.
  unfold new, __init__, bind at 1, invoke at 1. simpl.
  destruct (read_session sid rep) as [r1 [[s|]|e]]; simpl.
  - unfold ret. intros [= <- <-]. simpl. auto.
  - unfold bind, invoke, ret. simpl.
    destruct (create_session _ r1) as [r2 [s|e]]; simpl; [|discriminate].
    intros [= <- <-]. simpl. repeat split. right. split; reflexivity.
  - discriminate.
Qed.
End Lifecycle.

(** *** The properties at concrete sessions *)

Lemma initialize_create_path_persists_all_witness :
  issued (initialize {| agent_id := "a1"; messages := ["hello"; "again"]; state := ∅ |}) fresh
  = [ReadAgent "s1" "a1";
     CreateAgent "s1" {| sa_agent_id := "a1"; sa_state := ∅ |};
     CreateMessage "s1" "a1" (from_message "hello" 0);
     CreateMessage "s1" "a1" (from_message "again" 1)].
Proof.
  refine (proj2 (initialize_create_path_persists_all fresh
                   {| agent_id := "a1"; messages := ["hello"; "again"]; state := ∅ |}
                   (after (Initialize {| agent_id := "a1"; messages := ["hello"; "again"];
                                         state := ∅ |}) fresh)
                   {| agent_id := "a1"; messages := ["hello"; "again"]; state := ∅ |}
                   (repository (session_repository fresh)) _ _)).
  - vm_compute. reflexivity.
  - vm_compute. reflexivity.
Defined.


Lemma initialize_restore_path_only_reads_witness :
  issued (initialize a1) restored = [ReadAgent "s1" "a1"; ListMessages "s1" "a1"]
  /\ repository (session_repository (fst (initialize a1 restored))) = persisted.
Proof.
  pose proof (initialize_restore_path_only_reads restored a1
                {| sa_agent_id := "a1"; sa_state := {["x" := 1]} |} persisted) as H.
  destruct H as (Hcalls & Hrepo & _).
  - vm_compute. reflexivity.
  - vm_compute. reflexivity.
  - split; [exact Hcalls|exact Hrepo].
Defined.

Lemma other_agents_leave_agent_alone_witness :
  latest (after_all [Initialize {| agent_id := "a2"; messages := ["hi"]; state := ∅ |};
                     AppendMessage "x" {| agent_id := "a2"; messages := ["hi"]; state := ∅ |}]
            (after_all [Initialize a1; AppendMessage "m0" a1] fresh)) "a1"
  = Some (Some (from_message "m0" 0)).
Proof.
  refine (proj1 (other_agents_leave_agent_alone
                   [Initialize {| agent_id := "a2"; messages := ["hi"]; state := ∅ |};
                    AppendMessage "x" {| agent_id := "a2"; messages := ["hi"]; state := ∅ |}]
                   (after_all [Initialize a1; AppendMessage "m0" a1] fresh) "a1" _)).
  repeat constructor; discriminate.
Defined.

Lemma message_ids_contiguous_in_any_history_witness :
  created_for "a1"
    (history_calls
       [AppendMessage "m0" a1;
        RedactLatestMessage "r" a1;
        Initialize {| agent_id := "a2"; messages := ["hi"]; state := ∅ |};
        AppendMessage "x" {| agent_id := "a2"; messages := ["hi"]; state := ∅ |};
        SyncAgent a1;
        Initialize a1;
        AppendMessage "m1" a1]
       (after (Initialize a1) fresh))
  = [from_message "m0" 0; from_message "m1" 1].
Proof.
  refine (proj1 (message_ids_contiguous_in_any_history
                   [AppendMessage "m0" a1;
                    RedactLatestMessage "r" a1;
                    Initialize {| agent_id := "a2"; messages := ["hi"]; state := ∅ |};
                    AppendMessage "x" {| agent_id := "a2"; messages := ["hi"]; state := ∅ |};
                    SyncAgent a1;
                    Initialize a1;
                    AppendMessage "m1" a1]
                   (after (Initialize a1) fresh) "a1" None _)).
  vm_compute. reflexivity.
Defined.

Lemma redact_latest_message_overwrites_witness :
  issued (redact_latest_message "second" a1)
    (after (RedactLatestMessage "first" a1)
       (after_all [Initialize a1; AppendMessage "m0" a1] fresh))
  = [UpdateMessage "s1" "a1"
       {| message := "m0"; message_id := 0; redact_message := Some "second" |}].
Proof.
  refine (proj1 (redact_latest_message_overwrites
                   (after_all [Initialize a1; AppendMessage "m0" a1] fresh) a1
                   "first" "second" (from_message "m0" 0) _)).
  vm_compute. reflexivity.
Defined.

Lemma redact_latest_message_failure_keeps_redaction_witness :
  latest (fst (redact_latest_message "r" a1
                 (unplug (after_all [Initialize a1; AppendMessage "m0" a1] fresh)))) "a1"
  = Some (Some {| message := "m0"; message_id := 0; redact_message := Some "r" |}).
Proof.
  refine (proj2 (redact_latest_message_failure_keeps_redaction
                   (unplug (after_all [Initialize a1; AppendMessage "m0" a1] fresh)) a1
                   "r" (from_message "m0" 0) (OtherError "I/O failure") _ _)).
  - vm_compute. reflexivity.
  - vm_compute. reflexivity.
Defined.

Lemma new_manager_fields_witness :
  session_id (self fresh) = "s1"
  /\ _latest_agent_message (self fresh) = ∅
  /\ session_repository fresh = session_repository fresh
  /\ (snd (read_session "s1" (@empty_repository string (gmap string Z)))
      = Return (Some (session (self fresh)))
      \/ snd (read_session "s1" (@empty_repository string (gmap string Z))) = Return None
         /\ session (self fresh) = {| s_session_id := "s1"; s_session_type := AGENT |}).
Proof.
  refine (new_manager_fields "s1" empty_repository (session_repository fresh) fresh _).
  vm_compute. reflexivity.
Defined.

(** * Properties of the Baseten provider *)

Module BasetenProperties.
Import Baseten.

Section ConfigProperties.
Context {Any : Type} (str : string -> Any).
Implicit Types (model_config passed : gmap string Any).

(** X10. Which base URL the client is built with: the one in the model
    configuration wins, also over one in [client_args]; without it the one
    in [client_args] is kept; with neither it is the Model APIs default.
    The client always has a [base_url], every other client argument is
    passed on unchanged, and the configuration is stored as given. *)
Theorem base_url_precedence (client_args : option (gmap string Any)) model_config :
  config (fst (__init__ str client_args model_config)) = model_config
  /\ is_Some (client (fst (__init__ str client_args model_config)) !! "base_url")
  /\ (forall u, model_config !! "base_url" = Some u ->
        client (fst (__init__ str client_args model_config)) !! "base_url" = Some u)
  /\ (forall u, model_config !! "base_url" = None ->
        default ∅ client_args !! "base_url" = Some u ->
        client (fst (__init__ str client_args model_config)) !! "base_url" = Some u)
  /\ (model_config !! "base_url" = None ->
      default ∅ client_args !! "base_url" = None ->
      client (fst (__init__ str client_args model_config)) !! "base_url"
      = Some (str "https://inference.baseten.co/v1"))
  /\ (forall k, k <> "base_url" ->
        client (fst (__init__ str client_args model_config)) !! k
        = default ∅ client_args !! k).
Proof.
  unfold __init__, resolve_client_args. simpl.
  destruct (default ∅ client_args !! "base_url") as [v|] eqn:Ea;
    destruct (model_config !! "base_url") as [u|] eqn:Ec;
    repeat split; intros; simplify_eq;
    rewrite ?lookup_insert_eq, ?lookup_insert_ne by congruence; eauto.
Qed.

(** X11. A non-empty [client_args] dictionary is modified in place, so a
    dictionary shared between two constructions carries the base URL of
    the first into the second: if the first configuration names a base
    URL and the second names none, the second client is built with the
    first one's URL, not with the default. *)
Theorem shared_client_args_carry_base_url passed model_config1 model_config2 (u : Any) :
  passed <> ∅ ->
  model_config1 !! "base_url" = Some u ->
  model_config2 !! "base_url" = None ->
  snd (__init__ str (Some passed) model_config1)
    = Some (client (fst (__init__ str (Some passed) model_config1)))
  /\ client (fst (__init__ str (snd (__init__ str (Some passed) model_config1)) model_config2))
       !! "base_url" = Some u.
Proof.
  intros Hne H1 H2. unfold __init__, resolve_client_args. simpl.
  rewrite decide_False by exact Hne. rewrite H1, H2. simpl.
  split.
  - destruct (passed !! "base_url"); reflexivity.
  - assert (Hin : <["base_url" := u]> passed !! "base_url" = Some u)
      by apply lookup_insert_eq.
    destruct (passed !! "base_url"); simpl; rewrite Hin; exact Hin.
Qed.

(** X12. [update_config] overrides exactly the keys it is given and keeps
    the others, two updates amount to one update with the later one taking
    precedence, and the client is never rebuilt: a [base_url] given to
    [update_config] is recorded in the configuration while the client keeps
    the URL chosen by the constructor. *)
Theorem update_config_overrides (self : BasetenModel Any) model_config1 model_config2 :
  client (update_config model_config1 self) = client self
  /\ (forall k, get_config (update_config model_config1 self) !! k
               = match model_config1 !! k with
                 | Some v => Some v
                 | None => get_config self !! k
                 end)
  /\ update_config model_config2 (update_config model_config1 self)
     = update_config (model_config2 ∪ model_config1) self.
Proof.
  unfold update_config, get_config. simpl. repeat split.
  - intros k. rewrite lookup_union.
    destruct (model_config1 !! k), (config self !! k); reflexivity.
  - rewrite assoc_L; [reflexivity|apply _].
Qed.
End ConfigProperties.

Section StructuredOutputProperties.
Context {Any T : Type} (truth : T -> bool).
Implicit Types (config : gmap string Any) (parse : Any -> error + list (option T)).

(** X13. [structured_output] yields an output exactly when the model id is
    configured, the response has exactly one choice, that choice parsed as
    an instance of the output model and the instance is true; it then
    yields that one output and returns.  In every other case it yields
    nothing and raises: [KeyError] for a missing model id whatever the
    client would answer, and [ValueError] for more than one choice even if
    one of them parsed. *)
Theorem structured_output_yields_single_choice config parse :
  (forall parsed,
     structured_output truth config parse = ([parsed], None)
     <-> exists model_id, config !! "model_id" = Some model_id
                          /\ parse model_id = inr [Some parsed]
                          /\ truth parsed = true)
  /\ ((exists parsed, structured_output truth config parse = ([parsed], None))
      \/ exists e, structured_output truth config parse = ([], Some e))
  /\ (config !! "model_id" = None ->
      structured_output truth config parse = ([], Some (KeyError "model_id")))
  /\ (forall model_id response_choices,
        config !! "model_id" = Some model_id ->
        parse model_id = inr response_choices ->
        (1 < length response_choices)%nat ->
        structured_output truth config parse
        = ([], Some (ValueError "Multiple choices found in the Baseten response."))).
Proof.
  unfold structured_output. repeat split.
  - destruct (config !! "model_id") as [mid|]; [|discriminate].
    destruct (parse mid) as [e|cs] eqn:Hp; [discriminate|].
    case_decide; [discriminate|].
    destruct cs as [|[q|] [|c cs]]; simpl in *; try discriminate; try lia.
    destruct (truth q) eqn:Ht; [|discriminate].
    intros [= ->]. eauto.
  - intros (mid & -> & -> & Ht). simpl. rewrite Ht. reflexivity.
  - destruct (config !! "model_id") as [mid|]; [|eauto].
    destruct (parse mid) as [e|cs]; [eauto|].
    case_decide; [eauto|].
    destruct (first_parsed cs) as [q|]; [|eauto].
    destruct (truth q); eauto.
  - intros ->. reflexivity.
  - intros mid cs -> -> Hlen. rewrite decide_True by exact Hlen. reflexivity.
Qed.
End StructuredOutputProperties.
Section StreamProperties.
Context {ToolCall Usage : Type} (index : ToolCall -> Z).
Implicit Types (response : list (ChatCompletionChunk ToolCall Usage)).
Implicit Types (ev : ChatCompletionChunk ToolCall Usage) (ch : Choice ToolCall).
Implicit Types (st : locals ToolCall Usage) (t : ToolCall).
Implicit Types (seen : list (Z * (ToolCall * list ToolCall))).

Local Abbreviation message_start :=
  {| chunk_type := "message_start"; data_type := None; data := None |}.
Local Abbreviation content_start_text :=
  {| chunk_type := "content_start"; data_type := Some "text"; data := None |}.
Local Abbreviation content_stop_text :=
  {| chunk_type := "content_stop"; data_type := Some "text"; data := None |}.
Local Abbreviation message_stop r :=
  {| chunk_type := "message_stop"; data_type := None; data := Some (FinishReason r) |}.
Local Abbreviation metadata u :=
  {| chunk_type := "metadata"; data_type := None; data := Some (UsageOf u) |}.
Local Abbreviation table response :=
  (foldl (fun seen t => add_tool_call index t seen) [] (flat_map tool_deltas (handled response))).

(** *** The first loop in terms of the choices it handles *)

Lemma first_loop_handled response : forall st,
  yielded (fst (first_loop index response st))
    = yielded st ++ flat_map delta_chunks (handled response)
  /\ seen_tool_calls (fst (first_loop index response st))
     = foldl (fun seen t => add_tool_call index t seen) (seen_tool_calls st)
         (flat_map tool_deltas (handled response))
  /\ choice (fst (first_loop index response st))
     = match last (handled response) with Some ch => Some ch | None => choice st end
  /\ match last (snd (first_loop index response st)) with
     | Some ev => Some ev
     | None => event (fst (first_loop index response st))
     end
     = match last response with Some ev => Some ev | None => event st end.
Proof.
  induction response as [|ev rest IH]; intros st.
  - simpl. rewrite app_nil_r. auto.
  - rewrite last_cons. simpl first_loop. simpl handled.
    destruct (choices ev) as [[|ch chs]|].
    + destruct (IH {| yielded := yielded st; seen_tool_calls := seen_tool_calls st;
                      choice := choice st; event := Some ev |}) as (Hy & Hs & Hc & He).
      rewrite Hy, Hs, Hc, He. simpl. repeat split. destruct (last rest); reflexivity.
    + destruct (truthy (finish_reason ch)).
      * simpl. rewrite !app_nil_r. repeat split. destruct (last rest); reflexivity.
      * destruct (IH (on_choice index ch
                        {| yielded := yielded st; seen_tool_calls := seen_tool_calls st;
                           choice := choice st; event := Some ev |}))
          as (Hy & Hs & Hc & He).
        rewrite Hy, Hs, Hc, He. simpl. rewrite last_cons, foldl_app, <- app_assoc.
        repeat split.
        -- destruct (last (handled rest)); reflexivity.
        -- destruct (last rest); reflexivity.
    + destruct (IH {| yielded := yielded st; seen_tool_calls := seen_tool_calls st;
                      choice := choice st; event := Some ev |}) as (Hy & Hs & Hc & He).
      rewrite Hy, Hs, Hc, He. simpl. repeat split. destruct (last rest); reflexivity.
Qed.

Lemma handled_nil_last response : last response = None -> handled response = [].
Proof. intros H. apply last_None in H. subst. reflexivity. Qed.

(** [stream] in terms of the choices the loop handles and the last event
    of the response. *)
Lemma stream_handled response :
  stream index response =
    let out := [message_start; content_start_text]
               ++ flat_map delta_chunks (handled response)
               ++ [content_stop_text]
               ++ flat_map (fun entry => tool_block (snd entry)) (table response) in
    match last (handled response), last response with
    | Some ch, Some ev => (out ++ [message_stop (finish_reason ch); metadata (usage ev)], None)
    | _, _ => (out, Some (UnboundLocalError "choice"))
    end.
Proof.
  unfold stream.
  match goal with
  | |- context [first_loop index response ?st0] =>
      destruct (first_loop_handled response st0) as (Hy & Hs & Hc & He);
      destruct (first_loop index response st0) as [st remaining]
  end.
  simpl in *. rewrite Hy, Hs, Hc, He.
  destruct (last (handled response)) as [ch|] eqn:Hlast; [|reflexivity].
  destruct (last response) as [ev|] eqn:Hev.
  - simpl. rewrite <- !app_assoc. reflexivity.
  - rewrite (handled_nil_last _ Hev) in Hlast. discriminate.
Qed.
(** *** Which choices are handled *)

Lemma handled_without_choices response :
  Forall (fun ev => choices ev = None \/ choices ev = Some []) response ->
  handled response = [].
Proof.
  induction 1 as [|ev rest [Hev|Hev] _ IH]; [reflexivity|..]; simpl; rewrite Hev; exact IH.
Qed.

Lemma handled_with_choice response :
  Exists (fun ev => exists ch chs, choices ev = Some (ch :: chs)) response ->
  exists ch, last (handled response) = Some ch.
Proof.
  induction response as [|ev rest IH]; intros Hex; [inversion Hex|].
  simpl. destruct (choices ev) as [[|ch chs]|] eqn:Hev.
  - apply IH. inversion Hex as [? ? (c & cs & Hc)|]; subst; [congruence|assumption].
  - destruct (truthy (finish_reason ch)); [exists ch; reflexivity|].
    rewrite last_cons. destruct (last (handled rest)); eauto.
  - apply IH. inversion Hex as [? ? (c & cs & Hc)|]; subst; [congruence|assumption].
Qed.

Lemma handled_stops_at_finish pre ev ch chs rest :
  choices ev = Some (ch :: chs) ->
  truthy (finish_reason ch) = true ->
  handled (pre ++ ev :: rest) = handled (pre ++ [ev]).
Proof.
  intros Hev Hfin. induction pre as [|e pre IH]; simpl.
  - rewrite Hev, Hfin. reflexivity.
  - destruct (choices e) as [[|c cs]|]; [exact IH| |exact IH].
    destruct (truthy (finish_reason c)); [reflexivity|]. rewrite IH. reflexivity.
Qed.

(** X14. A response in which no event has a choice (an empty response
    included) does not complete: the generator yields [message_start], the
    start and the stop of the text block, and then raises
    [UnboundLocalError] for [choice]; no [message_stop] and no [metadata]
    chunk is yielded. *)
Theorem stream_without_choices response :
  Forall (fun ev => choices ev = None \/ choices ev = Some []) response ->
  stream index response
  = ([message_start; content_start_text; content_stop_text],
     Some (UnboundLocalError "choice")).
Proof.
  intros Hno. rewrite stream_handled, (handled_without_choices _ Hno). reflexivity.
Qed.

(** X15. A response in which some event has a choice completes without an
    exception.  The chunks start with [message_start] and the start of the
    text block and end with [message_stop], carrying the finish reason of
    the last choice handled, and [metadata], carrying the usage of the last
    event of the whole response, whether or not that event has choices;
    everything in between is a content chunk. *)
Theorem stream_frame response :
  Exists (fun ev => exists ch chs, choices ev = Some (ch :: chs)) response ->
  exists body ch ev,
    last (handled response) = Some ch
    /\ last response = Some ev
    /\ stream index response
       = ([message_start; content_start_text] ++ body
          ++ [message_stop (finish_reason ch); metadata (usage ev)], None)
    /\ Forall (fun c => chunk_type c = "content_delta" \/ chunk_type c = "content_start"
                        \/ chunk_type c = "content_stop") body.
Proof.
  intros Hex. destruct (handled_with_choice _ Hex) as [ch Hch].
  destruct (last response) as [ev|] eqn:Hev;
    [|rewrite (handled_nil_last _ Hev) in Hch; discriminate].
  exists (flat_map delta_chunks (handled response)
          ++ [content_stop_text]
          ++ flat_map (fun entry => tool_block (snd entry)) (table response)), ch, ev.
  split; [exact Hch|]. split; [reflexivity|].
  rewrite stream_handled, Hch, Hev. cbv zeta. split.
  - reflexivity.
  - apply Forall_app. split.
    + apply Forall_flat_map, Forall_forall. intros c _. unfold delta_chunks.
      destruct (truthy (content (delta c))), (truthy (reasoning_content (delta c)));
        simpl; repeat (constructor; [simpl; auto|]); constructor.
    + constructor; [simpl; auto|].
      apply Forall_flat_map, Forall_forall. intros [i [t0 ts]] _. unfold tool_block.
      apply Forall_app. split; [constructor; [simpl; auto|constructor]|].
      apply Forall_app. split; [|constructor; [simpl; auto|constructor]].
      apply Forall_fmap, Forall_forall. intros; simpl; auto.
Qed.

(** X16. Once an event carries a finish reason the loop stops: the events
    after it contribute nothing but the usage of the last of them.  For a
    finishing event [ev], every continuation of the response yields the
    same chunks up to [message_stop], followed by [metadata] with the usage
    of the last event. *)
Theorem stream_ignores_events_after_finish pre ev ch chs :
  choices ev = Some (ch :: chs) ->
  truthy (finish_reason ch) = true ->
  exists body,
    forall rest,
      stream index (pre ++ ev :: rest)
      = (body ++ [metadata (usage (default ev (last rest)))], None).
Proof.
  intros Hev Hfin.
  destruct (handled_with_choice (pre ++ [ev])) as [c Hc].
  { apply Exists_app. right. constructor. eauto. }
  exists (([message_start; content_start_text]
           ++ flat_map delta_chunks (handled (pre ++ [ev]))
           ++ [content_stop_text]
           ++ flat_map (fun entry => tool_block (snd entry)) (table (pre ++ [ev])))
          ++ [message_stop (finish_reason c)]).
  intros rest.
  rewrite stream_handled, (handled_stops_at_finish pre ev ch chs rest Hev Hfin), Hc.
  rewrite last_app_cons, last_cons.
  assert (Hdef : match last rest with Some y => Some y | None => Some ev end
                 = Some (default ev (last rest))) by (destruct (last rest); reflexivity).
  rewrite Hdef. cbv zeta. f_equal.
  rewrite <- (app_assoc _ [message_stop (finish_reason c)]). reflexivity.
Qed.
(** *** The deltas that are yielded *)

Lemma deltas_of_app (kind : string) (l1 l2 : list (chunk ToolCall Usage)) :
  deltas_of kind (l1 ++ l2) = deltas_of kind l1 ++ deltas_of kind l2.
Proof. apply omap_app. Qed.

Lemma deltas_of_tool_blocks (kind : string) seen :
  kind <> "tool" ->
  deltas_of kind (flat_map (fun entry => tool_block (Usage := Usage) (snd entry)) seen) = [].
Proof.
  intros Hkind. induction seen as [|[i [t0 ts]] seen IH]; [reflexivity|].
  change (flat_map ?f ((i, (t0, ts)) :: seen))
    with (tool_block (Usage := Usage) (t0, ts) ++ flat_map f seen).
  rewrite deltas_of_app, IH, app_nil_r.
  unfold tool_block. rewrite !deltas_of_app. simpl fst. simpl snd.
  assert (Hmap : forall l : list ToolCall,
            deltas_of kind (map (fun tool_delta =>
              {| chunk_type := "content_delta"; data_type := Some "tool";
                 data := Some (Tool (Usage := Usage) tool_delta) |}) l) = []).
  { induction l as [|x l IHl]; [reflexivity|]. unfold deltas_of in *. simpl.
    rewrite decide_False by (intros [_ [= H]]; congruence). exact IHl. }
  rewrite Hmap. reflexivity.
Qed.

Lemma deltas_of_stream (kind : string) response :
  deltas_of kind (fst (stream index response))
  = deltas_of kind (flat_map delta_chunks (handled response))
    ++ deltas_of kind (flat_map (fun entry => tool_block (snd entry)) (table response)).
Proof.
  rewrite stream_handled. cbv zeta.
  destruct (last (handled response)) as [ch|]; [destruct (last response) as [ev|]|];
    cbn [fst]; rewrite !deltas_of_app; cbn [app];
    rewrite ?app_nil_r; reflexivity.
Qed.

Lemma texts_delta_chunks ch :
  texts (deltas_of "text" (delta_chunks (Usage := Usage) ch))
  = option_list (if truthy (content (delta ch)) then content (delta ch) else None)
  /\ texts (deltas_of "reasoning_content" (delta_chunks (Usage := Usage) ch))
     = option_list (if truthy (reasoning_content (delta ch))
                    then reasoning_content (delta ch) else None).
Proof.
  unfold delta_chunks.
  destruct (content (delta ch)) as [c|], (reasoning_content (delta ch)) as [r|];
    simpl; repeat (destruct (negb _)); split; reflexivity.
Qed.

Lemma omap_cons_option_list {A B : Type} (f : A -> option B) (x : A) (l : list A) :
  omap f (x :: l) = option_list (f x) ++ omap f l.
Proof. simpl. destruct (f x); reflexivity. Qed.

(** X17. The text deltas yielded are exactly the non-empty
    [delta.content] strings of the choices handled, in order, and the
    reasoning deltas exactly their non-empty [delta.reasoning_content]
    strings; an empty or missing string yields no chunk. *)
Theorem stream_text_deltas response :
  texts (deltas_of "text" (fst (stream index response)))
  = omap (fun ch => if truthy (content (delta ch)) then content (delta ch) else None)
      (handled response)
  /\ texts (deltas_of "reasoning_content" (fst (stream index response)))
     = omap (fun ch => if truthy (reasoning_content (delta ch))
                       then reasoning_content (delta ch) else None)
         (handled response).
Proof.
  rewrite !deltas_of_stream, !deltas_of_tool_blocks, !app_nil_r by discriminate.
  split; induction (handled response) as [|ch l IH]; try reflexivity;
    change (flat_map ?f (ch :: l)) with (delta_chunks (Usage := Usage) ch ++ flat_map f l);
    rewrite deltas_of_app, omap_cons_option_list; unfold texts in *;
    rewrite omap_app, IH; f_equal; apply texts_delta_chunks.
Qed.
(** *** The dictionary of tool calls *)

Lemma deltas_at_add (i : Z) t seen :
  deltas_at i (add_tool_call index t seen)
  = deltas_at i seen ++ (if decide (index t = i) then [t] else []).
Proof.
  induction seen as [|[j [t0 ts]] seen IH]; simpl.
  - destruct (decide (index t = i)); reflexivity.
  - destruct (decide (j = index t)) as [Hj|Hj]; simpl.
    + destruct (decide (j = i)) as [Hi|Hi].
      * rewrite decide_True by congruence. reflexivity.
      * rewrite decide_False by congruence. rewrite app_nil_r. reflexivity.
    + destruct (decide (j = i)) as [Hi|Hi]; [|exact IH].
      rewrite decide_False by congruence. rewrite app_nil_r. reflexivity.
Qed.

Lemma deltas_at_foldl (i : Z) (all : list ToolCall) : forall seen,
  deltas_at i (foldl (fun seen t => add_tool_call index t seen) seen all)
  = deltas_at i seen ++ filter (fun t => index t = i) all.
Proof.
  induction all as [|t all IH]; intros seen; simpl.
  - rewrite app_nil_r. reflexivity.
  - rewrite IH, deltas_at_add, <- app_assoc. f_equal.
    rewrite filter_cons. destruct (decide (index t = i)); reflexivity.
Qed.

Lemma keys_add t seen :
  (add_tool_call index t seen).*1
  = seen.*1 ++ (if decide (index t ∈ seen.*1) then [] else [index t]).
Proof.
  induction seen as [|[j [t0 ts]] seen IH].
  - cbn [add_tool_call fmap list_fmap app fst].
    destruct (decide (index t ∈ [])) as [Hin|_]; [|reflexivity].
    apply elem_of_nil in Hin. destruct Hin.
  - cbn [add_tool_call]. destruct (decide (j = index t)) as [Hj|Hj].
    + cbn [fmap list_fmap fst].
      destruct (decide (index t ∈ j :: seen.*1)) as [_|Hout].
      * rewrite app_nil_r. reflexivity.
      * exfalso. apply Hout. subst. apply list_elem_of_here.
    + cbn [fmap list_fmap fst]. fold (seen.*1) ((add_tool_call index t seen).*1).
      rewrite IH. cbn [app]. f_equal.
      destruct (decide (index t ∈ seen.*1)) as [Hin|Hin];
        destruct (decide (index t ∈ j :: seen.*1)) as [Hin'|Hin']; try reflexivity.
      * exfalso. apply Hin'. apply list_elem_of_further. exact Hin.
      * exfalso. apply elem_of_cons in Hin' as [?|?]; congruence.
Qed.

Lemma keys_foldl (all : list ToolCall) : forall seen,
  NoDup seen.*1 ->
  NoDup (foldl (fun seen t => add_tool_call index t seen) seen all).*1
  /\ forall i, i ∈ (foldl (fun seen t => add_tool_call index t seen) seen all).*1
               <-> i ∈ seen.*1 \/ exists t, t ∈ all /\ index t = i.
Proof.
  induction all as [|t all IH]; intros seen Hnd; simpl.
  - split; [exact Hnd|]. intros i. split; [auto|].
    intros [?|(t & Ht & _)]; [assumption|]. apply elem_of_nil in Ht. destruct Ht.
  - assert (Hnd' : NoDup (add_tool_call index t seen).*1).
    { rewrite keys_add. destruct (decide (index t ∈ seen.*1)) as [Hin|Hin].
      - rewrite app_nil_r. exact Hnd.
      - apply NoDup_app. repeat split; [exact Hnd| |apply NoDup_singleton].
        intros x Hx Hx'. apply list_elem_of_singleton in Hx'. subst. contradiction. }
    destruct (IH _ Hnd') as [Hn Hk]. split; [exact Hn|].
    intros i. rewrite Hk, keys_add. split.
    + intros [Hin|(t' & Ht' & Hi)].
      * apply elem_of_app in Hin as [Hin|Hin]; [auto|].
        destruct (decide (index t ∈ seen.*1)); [apply elem_of_nil in Hin; destruct Hin|].
        apply list_elem_of_singleton in Hin. right. exists t. split; [left|auto].
      * right. exists t'. split; [right; exact Ht'|exact Hi].
    + intros [Hin|(t' & Ht' & Hi)].
      * left. apply elem_of_app. auto.
      * apply elem_of_cons in Ht' as [->|Ht']; [|right; eauto].
        left. apply elem_of_app.
        destruct (decide (index t ∈ seen.*1)) as [Hin|Hin]; [left; subst; exact Hin|].
        right. subst. apply list_elem_of_here.
Qed.

Lemma flat_map_ext_elem {A B : Type} (f g : A -> list B) (l : list A) :
  (forall x, x ∈ l -> f x = g x) -> flat_map f l = flat_map g l.
Proof.
  induction l as [|x l IH]; intros Hfg; [reflexivity|]. simpl.
  rewrite (Hfg x) by apply list_elem_of_here.
  rewrite IH; [reflexivity|]. intros y Hy. apply Hfg, list_elem_of_further, Hy.
Qed.

Lemma groups_by_key seen :
  NoDup seen.*1 ->
  flat_map (fun entry => group (snd entry)) seen
  = flat_map (fun i => deltas_at i seen) seen.*1.
Proof.
  induction seen as [|[j g] seen IH]; [reflexivity|].
  intros Hnd. apply NoDup_cons in Hnd as [Hj Hnd].
  change (flat_map ?f ((j, g) :: seen)) with (group g ++ flat_map f seen).
  change (((j, g) :: seen).*1) with (j :: seen.*1).
  change (flat_map ?f (j :: seen.*1)) with (f j ++ flat_map f seen.*1).
  cbn [deltas_at]. rewrite decide_True by reflexivity. f_equal. rewrite (IH Hnd).
  apply flat_map_ext_elem. intros i Hi.
  destruct (decide (j = i)) as [->|_]; [contradiction|reflexivity].
Qed.

Lemma deltas_of_tool_delta_chunks (l : list (Choice ToolCall)) :
  deltas_of "tool" (flat_map (delta_chunks (Usage := Usage)) l) = [].
Proof.
  induction l as [|ch l IH]; [reflexivity|].
  change (flat_map ?f (ch :: l)) with (delta_chunks (Usage := Usage) ch ++ flat_map f l).
  rewrite deltas_of_app, IH, app_nil_r. unfold delta_chunks.
  destruct (truthy (content (delta ch))), (truthy (reasoning_content (delta ch)));
    reflexivity.
Qed.

Lemma tools_of_tool_blocks seen :
  tools (deltas_of "tool"
           (flat_map (fun entry => tool_block (Usage := Usage) (snd entry)) seen))
  = flat_map (fun entry => group (snd entry)) seen.
Proof.
  induction seen as [|[i [t0 ts]] seen IH]; [reflexivity|].
  change (flat_map ?f ((i, (t0, ts)) :: seen))
    with (tool_block (Usage := Usage) (t0, ts) ++ flat_map f seen) at 1.
  rewrite deltas_of_app. unfold tools in *. rewrite omap_app, IH.
  change (flat_map ?f ((i, (t0, ts)) :: seen)) with (group (t0, ts) ++ flat_map f seen).
  f_equal. unfold tool_block, group. simpl fst. simpl snd.
  rewrite !deltas_of_app, !omap_app. simpl. rewrite app_nil_r.
  f_equal. induction ts as [|x ts IHts]; [reflexivity|]. simpl. f_equal. exact IHts.
Qed.

(** X18. Tool-call deltas are regrouped by index and none is lost or
    repeated: the tool deltas yielded are, for each index occurring among
    the deltas of the handled choices and each such index once, all the
    deltas with that index in the order they arrived. *)
Theorem stream_tool_deltas response :
  exists keys : list Z,
    NoDup keys
    /\ (forall i, i ∈ keys
                  <-> exists t, t ∈ flat_map tool_deltas (handled response) /\ index t = i)
    /\ tools (deltas_of "tool" (fst (stream index response)))
       = flat_map (fun i => filter (fun t => index t = i)
                              (flat_map tool_deltas (handled response))) keys.
Proof.
  destruct (keys_foldl (flat_map tool_deltas (handled response)) [] (NoDup_nil_2))
    as [Hnd Hk].
  exists (table response).*1. split; [exact Hnd|]. split.
  - intros i. rewrite Hk. split; [|auto].
    intros [Hin|?]; [|assumption]. apply elem_of_nil in Hin. destruct Hin.
  - rewrite deltas_of_stream, deltas_of_tool_delta_chunks. simpl app.
    rewrite tools_of_tool_blocks, (groups_by_key _ Hnd).
    apply flat_map_ext. intros i. apply (deltas_at_foldl i _ []).
Qed.

(** *** Framing *)

Lemma count_type_app (type : string) (l1 l2 : list (chunk ToolCall Usage)) :
  count_type type (l1 ++ l2) = (count_type type l1 + count_type type l2)%nat.
Proof. unfold count_type. rewrite filter_app, length_app. reflexivity. Qed.

Lemma count_delta_chunks (type : string) (l : list (Choice ToolCall)) :
  type <> "content_delta" ->
  count_type type (flat_map (delta_chunks (Usage := Usage)) l) = O.
Proof.
  intros Hty. induction l as [|ch l IH]; [reflexivity|].
  change (flat_map ?f (ch :: l)) with (delta_chunks (Usage := Usage) ch ++ flat_map f l).
  rewrite count_type_app, IH. unfold delta_chunks, count_type.
  destruct (truthy (content (delta ch))), (truthy (reasoning_content (delta ch)));
    simpl; rewrite ?filter_cons_False by (simpl; congruence); reflexivity.
Qed.

Lemma count_tool_blocks (type : string) seen :
  type = "content_start" \/ type = "content_stop" ->
  count_type type (flat_map (fun entry => tool_block (Usage := Usage) (snd entry)) seen)
  = length seen.
Proof.
  intros Hty. induction seen as [|[i [t0 ts]] seen IH]; [reflexivity|].
  change (flat_map ?f ((i, (t0, ts)) :: seen))
    with (tool_block (Usage := Usage) (t0, ts) ++ flat_map f seen).
  rewrite count_type_app, IH. simpl length. f_equal.
  unfold tool_block. rewrite !count_type_app. simpl fst. simpl snd.
  assert (Hmap : forall l : list ToolCall,
            count_type type (map (fun tool_delta =>
              {| chunk_type := "content_delta"; data_type := Some "tool";
                 data := Some (Tool (Usage := Usage) tool_delta) |}) l) = O).
  { induction l as [|x l IHl]; [reflexivity|]. unfold count_type in *. simpl.
    rewrite filter_cons_False by (simpl; destruct Hty; subst; discriminate). exact IHl. }
  rewrite Hmap. unfold count_type.
  destruct Hty; subst; reflexivity.
Qed.

(** X19. Content blocks are balanced: the chunks yielded hold as many
    [content_stop] as [content_start] chunks and exactly one
    [message_start], whether the generator completes or ends with the
    exception. *)
Theorem stream_blocks_balanced response :
  count_type "content_start" (fst (stream index response))
  = count_type "content_stop" (fst (stream index response))
  /\ count_type "message_start" (fst (stream index response)) = 1%nat.
Proof.
  rewrite stream_handled. cbv zeta.
  assert (Hstart : forall tail_chunks : list (chunk ToolCall Usage),
    count_type "content_start"
      (([message_start; content_start_text]
        ++ flat_map delta_chunks (handled response)
        ++ [content_stop_text]
        ++ flat_map (fun entry => tool_block (snd entry)) (table response)) ++ tail_chunks)
    = (S (length (table response)) + count_type "content_start" tail_chunks)%nat).
  { intros tl. rewrite !count_type_app, count_delta_chunks by discriminate.
    rewrite count_tool_blocks by auto. reflexivity. }
  assert (Hstop : forall tail_chunks : list (chunk ToolCall Usage),
    count_type "content_stop"
      (([message_start; content_start_text]
        ++ flat_map delta_chunks (handled response)
        ++ [content_stop_text]
        ++ flat_map (fun entry => tool_block (snd entry)) (table response)) ++ tail_chunks)
    = (S (length (table response)) + count_type "content_stop" tail_chunks)%nat).
  { intros tl. rewrite !count_type_app, count_delta_chunks by discriminate.
    rewrite count_tool_blocks by auto. reflexivity. }
  assert (Hmsg : forall tail_chunks : list (chunk ToolCall Usage),
    count_type "message_start"
      (([message_start; content_start_text]
        ++ flat_map delta_chunks (handled response)
        ++ [content_stop_text]
        ++ flat_map (fun entry => tool_block (snd entry)) (table response)) ++ tail_chunks)
    = (1 + count_type "message_start" tail_chunks)%nat).
  { intros tl. rewrite !count_type_app, count_delta_chunks by discriminate.
    assert (Hblocks : forall seen,
              count_type "message_start"
                (flat_map (fun entry => tool_block (Usage := Usage) (snd entry)) seen) = O).
    { induction seen as [|[i [t0 ts]] seen IH]; [reflexivity|].
      change (flat_map ?f ((i, (t0, ts)) :: seen))
        with (tool_block (Usage := Usage) (t0, ts) ++ flat_map f seen).
      rewrite count_type_app, IH. unfold tool_block. rewrite !count_type_app.
      simpl fst. simpl snd. unfold count_type at 1 3. simpl.
      induction ts as [|x ts IHts]; [reflexivity|].
      unfold count_type in *. simpl.
      rewrite filter_cons_False by (simpl; discriminate).
      rewrite filter_cons_False in IHts by (simpl; discriminate). exact IHts. }
    rewrite Hblocks. reflexivity. }
  destruct (last (handled response)) as [ch|]; [destruct (last response) as [ev|]|];
    cbn [fst].
  - rewrite Hstart, Hstop, Hmsg. split; reflexivity.
  - rewrite <- (app_nil_r (_ ++ _ ++ _ ++ _)), Hstart, Hstop, Hmsg. split; reflexivity.
  - rewrite <- (app_nil_r (_ ++ _ ++ _ ++ _)), Hstart, Hstop, Hmsg. split; reflexivity.
Qed.
End StreamProperties.

(** *** The properties at concrete inputs

    Values are strings, a tool call is a pair of its index and its text,
    and usage is a number. *)

Lemma base_url_precedence_witness :
  client (fst (__init__ (fun s : string => s)
                 (Some {["api_key" := "k"; "base_url" := "https://example.test/v1"]})
                 {["base_url" := "https://model-232k7g23.api.baseten.co/environments/production/sync/v1"]}))
    !! "base_url"
  = Some "https://model-232k7g23.api.baseten.co/environments/production/sync/v1".
Proof.
  refine (proj1 (proj2 (proj2 (base_url_precedence (fun s : string => s)
            (Some {["api_key" := "k"; "base_url" := "https://example.test/v1"]})
            {["base_url" := "https://model-232k7g23.api.baseten.co/environments/production/sync/v1"]})))
          _ _).
  vm_compute. reflexivity.
Defined.

Lemma shared_client_args_carry_base_url_witness :
  client (fst (__init__ (fun s : string => s)
                 (snd (__init__ (fun s : string => s) (Some {["api_key" := "k"]})
                         {["base_url" := "https://dedicated.test/v1"]}))
                 {["model_id" := "deepseek-ai/DeepSeek-V3-0324"]}))
    !! "base_url"
  = Some "https://dedicated.test/v1".
Proof.
  refine (proj2 (shared_client_args_carry_base_url (fun s : string => s)
                   {["api_key" := "k"]}
                   {["base_url" := "https://dedicated.test/v1"]}
                   {["model_id" := "deepseek-ai/DeepSeek-V3-0324"]}
                   "https://dedicated.test/v1" _ _ _)).
  - intros H. vm_compute in H. discriminate H.
  - vm_compute. reflexivity.
  - vm_compute. reflexivity.
Defined.

Lemma structured_output_yields_single_choice_witness :
  structured_output (fun _ : string => true)
    ({["base_url" := "https://dedicated.test/v1"]} : gmap string string)
    (fun _ => inr [Some "sunny"])
  = ([], Some (KeyError "model_id")).
Proof.
  refine (proj1 (proj2 (proj2 (structured_output_yields_single_choice
            (fun _ : string => true)
            ({["base_url" := "https://dedicated.test/v1"]} : gmap string string)
            (fun _ => inr [Some "sunny"])))) _).
  vm_compute. reflexivity.
Defined.

Lemma stream_without_choices_witness :
  stream (fst : Z * string -> Z)
    [{| choices := None; usage := 3%nat |}; {| choices := Some []; usage := 4%nat |}]
  = ([{| chunk_type := "message_start"; data_type := None; data := None |};
      {| chunk_type := "content_start"; data_type := Some "text"; data := None |};
      {| chunk_type := "content_stop"; data_type := Some "text"; data := None |}],
     Some (UnboundLocalError "choice")).
Proof.
  refine (stream_without_choices (fst : Z * string -> Z)
            [{| choices := None; usage := 3%nat |}; {| choices := Some []; usage := 4%nat |}] _).
  constructor; [left; reflexivity|]. constructor; [right; reflexivity|]. constructor.
Defined.

Lemma stream_frame_witness :
  exists body ch ev,
    last (handled
            [{| choices := Some [{| delta := {| content := Some "hi";
                                                reasoning_content := None;
                                                tool_calls := Some [(0, "x")] |};
                                    finish_reason := Some "stop" |}];
                usage := 1%nat |};
             {| choices := Some []; usage := 7%nat |}]) = Some ch
    /\ last [{| choices := Some [{| delta := {| content := Some "hi";
                                                reasoning_content := None;
                                                tool_calls := Some [(0, "x")] |};
                                    finish_reason := Some "stop" |}];
                usage := 1%nat |};
             {| choices := Some []; usage := 7%nat |}] = Some ev
    /\ stream (fst : Z * string -> Z)
         [{| choices := Some [{| delta := {| content := Some "hi";
                                             reasoning_content := None;
                                             tool_calls := Some [(0, "x")] |};
                                 finish_reason := Some "stop" |}];
             usage := 1%nat |};
          {| choices := Some []; usage := 7%nat |}]
       = ([{| chunk_type := "message_start"; data_type := None; data := None |};
           {| chunk_type := "content_start"; data_type := Some "text"; data := None |}]
          ++ body
          ++ [{| chunk_type := "message_stop"; data_type := None;
                 data := Some (FinishReason (finish_reason ch)) |};
              {| chunk_type := "metadata"; data_type := None;
                 data := Some (UsageOf (usage ev)) |}], None)
    /\ Forall (fun c => chunk_type c = "content_delta" \/ chunk_type c = "content_start"
                        \/ chunk_type c = "content_stop") body.
Proof.
  refine (stream_frame (fst : Z * string -> Z)
            [{| choices := Some [{| delta := {| content := Some "hi";
                                                reasoning_content := None;
                                                tool_calls := Some [(0, "x")] |};
                                    finish_reason := Some "stop" |}];
                usage := 1%nat |};
             {| choices := Some []; usage := 7%nat |}] _).
  apply Exists_cons_hd. eexists _, _. reflexivity.
Defined.

Lemma stream_ignores_events_after_finish_witness :
  exists body,
    forall rest,
      stream (fst : Z * string -> Z)
        ([] ++ {| choices := Some [{| delta := {| content := Some "hi";
                                                   reasoning_content := None;
                                                   tool_calls := None |};
                                       finish_reason := Some "stop" |}];
                   usage := 1%nat |} :: rest)
      = (body
         ++ [{| chunk_type := "metadata"; data_type := None;
                data := Some (UsageOf (usage (default
                  {| choices := Some [{| delta := {| content := Some "hi";
                                                     reasoning_content := None;
                                                     tool_calls := None |};
                                         finish_reason := Some "stop" |}];
                     usage := 1%nat |} (last rest)))) |}], None).
Proof.
  refine (stream_ignores_events_after_finish (fst : Z * string -> Z) []
            {| choices := Some [{| delta := {| content := Some "hi";
                                               reasoning_content := None;
                                               tool_calls := None |};
                                   finish_reason := Some "stop" |}];
               usage := 1%nat |}
            {| delta := {| content := Some "hi"; reasoning_content := None;
                           tool_calls := None |};
               finish_reason := Some "stop" |} [] _ _).
  - reflexivity.
  - reflexivity.
Defined.
End BasetenProperties.
